(** * Stable Index Vector (package siv): model and verification

    A shallow embedding of [siv.go] and the properties of its handle
    table.  Go's [int] is modelled as a 64-bit two's-complement integer
    carried in [Z]; Go slices as lists; run-time panics (index out of
    range, the explicit [panic] of [Pop]) as [None] in a state monad over
    the three slices of the container. *)

From Stdlib Require Import ZArith Lia.
From stdpp Require Import base option list.

Local Open Scope Z_scope.

(** ** Go integers and slices *)

Definition int_min : Z := - 2 ^ 63.
Definition int_max : Z := 2 ^ 63 - 1.

(** Two's-complement wrap-around of a 64-bit [int]. *)
Definition wrap (x : Z) : Z := (x + 2 ^ 63) mod 2 ^ 64 - 2 ^ 63.

(** [x++] on an [int]. *)
Definition incr (x : Z) : Z := wrap (x + 1).

(** [len(l)] *)
Definition len {A : Type} (l : list A) : Z := Z.of_nat (length l).

(** [l[i]] as an expression: [None] is the index-out-of-range panic. *)
Definition at_index {A : Type} (l : list A) (i : Z) : option A :=
  if i <? 0 then None else l !! Z.to_nat i.

(** [l[i] = x]: [None] is the index-out-of-range panic. *)
Definition assign {A : Type} (l : list A) (i : Z) (x : A) : option (list A) :=
  if (0 <=? i) && (i <? len l) then Some (<[Z.to_nat i := x]> l) else None.

(** [l[i], l[j] = l[j], l[i]]: both operands are read first, then the two
    assignments are carried out from left to right. *)
Definition swap {A : Type} (l : list A) (i j : Z) : option (list A) :=
  match at_index l j, at_index l i with
  | Some a, Some b =>
      match assign l i a with
      | Some l1 => assign l1 j b
      | None => None
      end
  | _, _ => None
  end.

(** [l[:hi]] for [hi <= len(l)]; a negative bound panics.  The code only
    reslices to [len(l) - 1], so the part of the backing array beyond the
    length is never brought back by a reslice and is not modelled. *)
Definition reslice {A : Type} (l : list A) (hi : Z) : option (list A) :=
  if (0 <=? hi) && (hi <=? len l) then Some (take (Z.to_nat hi) l) else None.

(** ** Data model *)

(** [type metadata struct { rid int; vid int }] *)
Record metadata : Type := mk_meta { rid : Z; vid : Z }.

(** [type Handle[T any] metadata] *)
Definition Handle : Type := metadata.

(** [ErrInvalid], [ErrExpired] *)
Inductive error : Type := ErrInvalid | ErrExpired.

(** What the package takes from the language and its runtime for an item
    type [T]: the zero value of [T], returned next to a non-nil error, and
    the capacity the runtime chooses when [append] outgrows the backing
    array of [data] (old capacity, needed length). *)
Class GoEnv (T : Type) : Type := {
  zero : T;
  growslice : nat -> nat -> nat
}.

Section Container.

Context {T : Type} {E : GoEnv T}.

(** [type SIV[T any] struct { data []T; indices []int; meta []metadata }].
    [dcap] is [cap(data)], the only capacity the package reports. *)
Record SIV : Type := mkSIV {
  data : list T;
  dcap : nat;
  indices : list Z;
  meta : list metadata
}.

(** Methods on [*SIV]: a state monad whose [None] is a panic. *)
Definition M (A : Type) : Type := SIV -> option (A * SIV).

Definition ret {A : Type} (a : A) : M A := fun s => Some (a, s).

Definition bind {A B : Type} (m : M A) (k : A -> M B) : M B :=
  fun s => match m s with
           | Some (a, s') => k a s'
           | None => None
           end.

Definition get : M SIV := fun s => Some (s, s).

Definition lift {A : Type} (o : option A) : M A :=
  fun s => match o with Some a => Some (a, s) | None => None end.

Definition panic {A : Type} : M A := fun _ => None.

Definition set_data (d : list T) : M unit :=
  fun s => Some (tt, mkSIV d (dcap s) (indices s) (meta s)).

Definition set_indices (ix : list Z) : M unit :=
  fun s => Some (tt, mkSIV (data s) (dcap s) ix (meta s)).

Definition set_meta (ms : list metadata) : M unit :=
  fun s => Some (tt, mkSIV (data s) (dcap s) (indices s) ms).

(** [s.data = append(s.data, item)] *)
Definition append_data (item : T) : M unit :=
  fun s =>
    let n := length (data s) in
    let c := if (n <? dcap s)%nat then dcap s else growslice (dcap s) (S n) in
    Some (tt, mkSIV (data s ++ [item]) c (indices s) (meta s)).

End Container.

Arguments SIV : clear implicits.
Arguments M : clear implicits.

Notation "'let!' x ':=' m 'in' k" := (bind m (fun x => k))
  (at level 10, x name, m at level 100, k at level 200).
Notation "'let!' ( x , y ) ':=' m 'in' k" :=
  (bind m (fun p => match p with (x, y) => k end))
  (at level 10, x name, y name, m at level 100, k at level 200).
Notation "m ;; k" := (bind m (fun _ => k))
  (at level 100, k at level 200, right associativity).

Section Operations.

Context {T : Type} {E : GoEnv T}.

#[local] Abbreviation SIV := (SIV T).
#[local] Abbreviation M := (M T).

(** A container without items whose [data] has capacity [c]. *)
Definition new_container (c : nat) : SIV := mkSIV [] c [] [].

(** The empty structure, ready to use with zero capacity: [SIV[T]{}]. *)
Definition empty : SIV := new_container 0.


Definition findID (h : Handle) : M (Z * option error) :=
  let! s := get in
  if (rid h <? 0) || (rid h >=? len (indices s)) then ret (0, Some ErrInvalid)
  else
    let! id := lift (at_index (indices s) (rid h)) in
    let! m := lift (at_index (meta s) id) in
    if negb (vid m =? vid h) then ret (0, Some ErrExpired)
    else ret (id, None).

Definition Get (h : Handle) : M (T * option error) :=
  let! (id, err2) := findID h in
  match err2 with
  | Some e => ret (zero, Some e)
  | None =>
      let! s := get in
      let! item := lift (at_index (data s) id) in
      ret (item, None)
  end.

Definition Set_ (h : Handle) (v : T) : M (T * option error) :=
  let! (id, err2) := findID h in
  match err2 with
  | Some e => ret (zero, Some e)
  | None =>
      let! s := get in
      let! old := lift (at_index (data s) id) in
      let! d := lift (assign (data s) id v) in
      set_data d ;;
      ret (old, None)
  end.

Definition Len : M Z := let! s := get in ret (len (data s)).

Definition Cap : M Z := let! s := get in ret (Z.of_nat (dcap s)).

Definition Put (item : T) : M Handle :=
  let! s := get in
  let id := len (data s) in
  if len (meta s) >? len (data s) then
    append_data item ;;
    let! s1 := get in
    let! m := lift (at_index (meta s1) id) in
    let! ms := lift (assign (meta s1) id (mk_meta (rid m) (incr (vid m)))) in
    set_meta ms ;;
    let! s2 := get in
    lift (at_index (meta s2) id)
  else
    append_data item ;;
    let! s1 := get in
    set_indices (indices s1 ++ [id]) ;;
    let! s2 := get in
    set_meta (meta s2 ++ [mk_meta id 0]) ;;
    ret (mk_meta id 0).

Definition Remove (h : Handle) : M (T * option error) :=
  let! (id1, err2) := findID h in
  match err2 with
  | Some e => ret (zero, Some e)
  | None =>
      let! s := get in
      let id2 := len (data s) - 1 in
      let! item := lift (at_index (data s) id1) in
      let rid1 := rid h in
      let! m2 := lift (at_index (meta s) id2) in
      let rid2 := rid m2 in
      (if negb (id1 =? id2) then
         let! d := lift (swap (data s) id1 id2) in
         set_data d ;;
         let! ms := lift (swap (meta s) id1 id2) in
         set_meta ms ;;
         let! ix := lift (swap (indices s) rid1 rid2) in
         set_indices ix
       else ret tt) ;;
      let! s1 := get in
      let! m := lift (at_index (meta s1) id2) in
      let! ms := lift (assign (meta s1) id2 (mk_meta (rid m) (incr (vid m)))) in
      set_meta ms ;;
      let! s2 := get in
      let! d := lift (reslice (data s2) (len (data s2) - 1)) in
      set_data d ;;
      ret (item, None)
  end.

Definition Pop : M T :=
  let! s := get in
  if len (data s) =? 0 then panic
  else
    let! h := lift (at_index (meta s) (len (data s) - 1)) in
    let! (it, _) := Remove h in
    ret it.

(** The [range] loop of [Iter] and [Iter2]: the elements handed to [yield],
    up to and including the first one on which it returns false. *)
Fixpoint range_loop {A : Type} (yield : A -> bool) (l : list A) : list A :=
  match l with
  | [] => []
  | x :: l' => if yield x then x :: range_loop yield l' else [x]
  end.

Definition Iter (yield : T -> bool) : M (list T) :=
  let! s := get in ret (range_loop yield (data s)).

(** [for i, v := range s.data { h := Handle[T](s.meta[i]); ... }] *)
Fixpoint range_loop2 (yield : Handle -> T -> bool) (ms : list metadata)
    (i : nat) (l : list T) : option (list (Handle * T)) :=
  match l with
  | [] => Some []
  | v :: l' =>
      match at_index ms (Z.of_nat i) with
      | None => None
      | Some h =>
          if yield h v then
            match range_loop2 yield ms (S i) l' with
            | Some r => Some ((h, v) :: r)
            | None => None
            end
          else Some [(h, v)]
      end
  end.

Definition Iter2 (yield : Handle -> T -> bool) : M (list (Handle * T)) :=
  let! s := get in lift (range_loop2 yield (meta s) 0 (data s)).

(** ** Runs of operations *)

Inductive op : Type :=
  | OPut (v : T)
  | OGet (h : Handle)
  | OSet (h : Handle) (v : T)
  | ORemove (h : Handle)
  | OPop
  | OLen
  | OCap
  | OIter (yield : T -> bool)
  | OIter2 (yield : Handle -> T -> bool).

Inductive reply : Type :=
  | RHandle (h : Handle)
  | RItem (item : T) (err : option error)
  | RPopped (item : T)
  | RInt (n : Z)
  | RItems (l : list T)
  | RPairs (l : list (Handle * T)).

Definition exec (o : op) : M reply :=
  match o with
  | OPut v => let! h := Put v in ret (RHandle h)
  | OGet h => let! (x, e) := Get h in ret (RItem x e)
  | OSet h v => let! (x, e) := Set_ h v in ret (RItem x e)
  | ORemove h => let! (x, e) := Remove h in ret (RItem x e)
  | OPop => let! x := Pop in ret (RPopped x)
  | OLen => let! n := Len in ret (RInt n)
  | OCap => let! n := Cap in ret (RInt n)
  | OIter y => let! l := Iter y in ret (RItems l)
  | OIter2 y => let! l := Iter2 y in ret (RPairs l)
  end.

Fixpoint run (ops : list op) : M (list reply) :=
  match ops with
  | [] => ret []
  | o :: ops' => let! r := exec o in let! rs := run ops' in ret (r :: rs)
  end.

(** A state is reachable when a panic-free run of operations leads to it
    from a new container, be it [SIV[T]{}] or made by [WithCapacity]. *)
Definition reachable (s : SIV) : Prop :=
  exists (c : nat) (ops : list op) (rs : list reply),
    run ops (new_container c) = Some (rs, s).

(** ** Specification vocabulary *)

(** The representation invariant of the container: [indices] and the
    reference ids stored in [meta] are inverse to each other on every
    slot, the live items are a prefix of the slots, generations are Go
    integers, and a slot is live exactly when its generation is even. *)
Record wf (s : SIV) : Prop := mk_wf {
  wf_len_idx : length (indices s) = length (meta s);
  wf_len_data : (length (data s) <= length (meta s))%nat;
  wf_meta : forall (p : nat) (m : metadata),
    meta s !! p = Some m ->
    0 <= rid m /\ indices s !! Z.to_nat (rid m) = Some (Z.of_nat p);
  wf_idx : forall (r : nat) (i : Z),
    indices s !! r = Some i ->
    0 <= i /\ exists m, meta s !! Z.to_nat i = Some m /\ rid m = Z.of_nat r;
  wf_gen : forall (p : nat) (m : metadata),
    meta s !! p = Some m ->
    int_min <= vid m <= int_max /\
    (Z.even (vid m) = true <-> (p < length (data s))%nat)
}.

(** Reference id [rid h] is in bounds and bound to position [p], whose
    metadata is [m]. *)
Definition slot_of (s : SIV) (h : Handle) (p : nat) (m : metadata) : Prop :=
  0 <= rid h /\ indices s !! Z.to_nat (rid h) = Some (Z.of_nat p) /\
  meta s !! p = Some m.

(** The three verdicts of handle validation. *)
Definition out_of_bounds (s : SIV) (h : Handle) : Prop :=
  rid h < 0 \/ len (indices s) <= rid h.

Definition stale (s : SIV) (h : Handle) : Prop :=
  exists (i : Z) (m : metadata),
    at_index (indices s) (rid h) = Some i /\
    at_index (meta s) i = Some m /\ vid m <> vid h.

Definition resolves (s : SIV) (h : Handle) (i : Z) : Prop :=
  at_index (indices s) (rid h) = Some i /\
  exists m : metadata, at_index (meta s) i = Some m /\ vid m = vid h.

(** The outcome of a handle-mediated operation [f] in state [s]:
    [ErrInvalid] exactly for a reference id out of bounds, [ErrExpired]
    exactly for a generation that differs from the stored one, no change
    of state with either error, and success, on the item at the resolved
    position, exactly for a matching even generation. *)
Definition validated (s : SIV) (h : Handle) (f : M (T * option error)) : Prop :=
  ((exists x s', f s = Some ((x, Some ErrInvalid), s')) <-> out_of_bounds s h) /\
  ((exists x s', f s = Some ((x, Some ErrExpired), s')) <-> stale s h) /\
  (forall x e s', f s = Some ((x, Some e), s') -> s' = s) /\
  (forall item,
     (exists s', f s = Some ((item, None), s')) <->
     (exists i, resolves s h i /\ Z.even (vid h) = true /\
                at_index (data s) i = Some item)).

(** The slots vacated by a removal and not yet reused: the metadata past
    the live items, the most recently freed first. *)
Definition freed_slots (s : SIV) : list metadata :=
  drop (length (data s)) (meta s).

(** The metadata of a slot after [vid++]. *)
Definition bump (m : metadata) : metadata := mk_meta (rid m) (incr (vid m)).

(** The state after a successful [Remove] of the item at position [p1],
    where [last] and [m2] are the item and metadata of the last live
    position and [m1] the metadata at [p1]. *)
Definition removed (s : SIV) (p1 : nat) (last : T) (m1 m2 : metadata) : SIV :=
  let p2 := (length (data s) - 1)%nat in
  mkSIV (take p2 (<[p1 := last]> (data s)))
        (dcap s)
        (<[Z.to_nat (rid m2) := Z.of_nat p1]>
           (<[Z.to_nat (rid m1) := Z.of_nat p2]> (indices s)))
        (<[p2 := bump m1]> (<[p1 := m2]> (meta s))).

(** The capacity of [data] after an [append]. *)
Definition grown (s : SIV) : nat :=
  if (length (data s) <? dcap s)%nat then dcap s
  else growslice (dcap s) (S (length (data s))).

(** The state after a [Put] that reuses the freed slot [m]. *)
Definition reused (s : SIV) (v : T) (m : metadata) : SIV :=
  mkSIV (data s ++ [v]) (grown s) (indices s)
        (<[length (data s) := bump m]> (meta s)).

(** The state after a [Put] that allocates a new reference id. *)
Definition extended (s : SIV) (v : T) : SIV :=
  mkSIV (data s ++ [v]) (grown s) (indices s ++ [len (data s)])
        (meta s ++ [mk_meta (len (data s)) 0]).

(** The state changes an operation can make. *)
Inductive trans (s : SIV) : SIV -> Prop :=
  | trans_same : trans s s
  | trans_set (p : nat) (v : T) :
      trans s (mkSIV (<[p := v]> (data s)) (dcap s) (indices s) (meta s))
  | trans_reuse (v : T) (m : metadata) :
      meta s !! length (data s) = Some m -> trans s (reused s v m)
  | trans_extend (v : T) :
      (length (meta s) <= length (data s))%nat -> trans s (extended s v)
  | trans_remove (p : nat) (last : T) (m1 m2 : metadata) :
      (p < length (data s))%nat ->
      meta s !! p = Some m1 ->
      meta s !! (length (data s) - 1)%nat = Some m2 ->
      trans s (removed s p last m1 m2).

(** The generation currently stored for reference id [r]. *)
Definition cur_gen (s : SIV) (r : Z) : option Z :=
  match at_index (indices s) r with
  | Some i => match at_index (meta s) i with
              | Some m => Some (vid m)
              | None => None
              end
  | None => None
  end.

(** No generation counter of the state is at the point of wrapping. *)
Definition gens_below_max (s : SIV) : bool :=
  forallb (fun m => vid m <? int_max) (meta s).

(** No [vid++] of the run wraps: every state an operation starts from has
    its generation counters below the largest [int]. *)
Fixpoint no_wrap (ops : list op) (s : SIV) : bool :=
  match ops with
  | [] => true
  | o :: ops' =>
      gens_below_max s &&
      match exec o s with
      | Some (_, s') => no_wrap ops' s'
      | None => true
      end
  end.

(** The handles issued by [Put] in a run, in the order of issue. *)
Fixpoint handles_of (rs : list reply) : list Handle :=
  match rs with
  | [] => []
  | RHandle h :: rs' => h :: handles_of rs'
  | _ :: rs' => handles_of rs'
  end.

(** Every handle has a strictly greater generation than each handle issued
    before it for the same reference id. *)
Fixpoint gen_ordered (hs : list Handle) : Prop :=
  match hs with
  | [] => True
  | h :: hs' =>
      Forall (fun h' => rid h' = rid h -> vid h < vid h') hs' /\ gen_ordered hs'
  end.

(** Every operation of the run returned without an error. *)
Definition all_ok (rs : list reply) : Prop :=
  Forall (fun r => match r with RItem _ (Some _) => False | _ => True end) rs.

End Operations.

(** The container of the package's test, [SIV[int]]: the zero value of
    [int], and a runtime that doubles the capacity of a full slice. *)
#[export] Instance int_env : GoEnv Z := {|
  zero := 0;
  growslice := fun c n => Nat.max n (2 * c)
|}.

(** The state [siv_test.go] ends in. *)
Definition test_state : SIV Z :=
  mkSIV [40; 30] 4 [2; 0; 1] [mk_meta 1 2; mk_meta 2 0; mk_meta 0 1].

(** The operations [siv_test.go] performs. *)
Definition test_ops : list (op (T:=Z)) :=
  [OPut 10; OPut 20; OPut 30; ORemove (mk_meta 1 0); OPut 40;
   OGet (mk_meta 2 0); ORemove (mk_meta 0 0)].

(** A container whose only item was removed. *)
Definition vacated_state : SIV Z := mkSIV [] 1 [0] [mk_meta 0 1].

(** A container holding one item. *)
Definition single_state : SIV Z := mkSIV [10] 1 [0] [mk_meta 0 0].

(** The scenario of [siv_test.go], step by step, with [k] the difference
    between the generation of the handle returned for 40 and that of the
    handle of the removed 20. *)
Definition scenario (k : Z) : Prop :=
  exists (h1 h2 h3 h4 : Handle) (s1 s2 s3 s4 s5 s6 : SIV Z),
    Put 10 empty = Some (h1, s1) /\
    Put 20 s1 = Some (h2, s2) /\
    Put 30 s2 = Some (h3, s3) /\
    data s3 = [10; 20; 30] /\
    Remove h2 s3 = Some ((20, None), s4) /\
    data s4 = [10; 30] /\
    Put 40 s4 = Some (h4, s5) /\
    vid h4 = vid h2 + k /\
    data s5 = [10; 30; 40] /\
    Get h3 s5 = Some ((30, None), s5) /\
    Remove h1 s5 = Some ((10, None), s6) /\
    data s6 = [40; 30].

(** ** Accounting over runs *)

Section Accounting.

Context {T : Type} {E : GoEnv T}.

(** What an operation that returned [r] adds to the number of items. *)
Definition len_delta (o : op (T:=T)) (r : reply (T:=T)) : Z :=
  match o, r with
  | OPut _, _ => 1
  | ORemove _, RItem _ None => -1
  | OPop, _ => -1
  | _, _ => 0
  end.

(** Insertions minus successful removals of a run with replies [rs]. *)
Fixpoint net_inserts (ops : list (op (T:=T))) (rs : list (reply (T:=T))) : Z :=
  match ops, rs with
  | o :: ops', r :: rs' => len_delta o r + net_inserts ops' rs'
  | _, _ => 0
  end.

(** The largest number of items held at any point of a run from [s]. *)
Fixpoint high_water (ops : list (op (T:=T))) (s : SIV T) : nat :=
  match ops with
  | [] => length (data s)
  | o :: ops' =>
      Nat.max (length (data s))
              match exec o s with
              | Some (_, s') => high_water ops' s'
              | None => 0%nat
              end
  end.

End Accounting.

(** Unfold the monad down to the state function. *)
Ltac mred :=
  unfold bind, ret, get, lift, panic, set_data, set_indices, set_meta,
    append_data; cbn [data dcap indices meta fst snd].

(** ** Facts about Go integers and slice accesses *)

Lemma incr_small (v : Z) : int_min <= v < int_max -> incr v = v + 1.
Proof.
  unfold incr, wrap, int_min, int_max. intros Hv.
  rewrite Z.mod_small by lia. lia.
Qed.

Lemma incr_range (v : Z) : int_min <= incr v <= int_max.
Proof.
  unfold incr, wrap, int_min, int_max.
  pose proof (Z.mod_pos_bound (v + 1 + 2 ^ 63) (2 ^ 64) ltac:(lia)). lia.
Qed.

Lemma incr_even (v : Z) : Z.even (incr v) = negb (Z.even v).
Proof.
  unfold incr, wrap.
  rewrite (Z.mod_eq _ (2 ^ 64)) by lia.
  replace (v + 1 + 2 ^ 63 - 2 ^ 64 * ((v + 1 + 2 ^ 63) / 2 ^ 64) - 2 ^ 63)
    with (Z.succ v + 2 * (- 2 ^ 63 * ((v + 1 + 2 ^ 63) / 2 ^ 64))) by lia.
  rewrite Z.even_add_mul_2, Z.even_succ, <- Z.negb_even. reflexivity.
Qed.

Lemma len_app {A : Type} (l : list A) (x : A) : len (l ++ [x]) = len l + 1.
Proof. unfold len. rewrite length_app. simpl. lia. Qed.

Lemma at_index_nat {A : Type} (l : list A) (p : nat) :
  at_index l (Z.of_nat p) = l !! p.
Proof.
  unfold at_index. destruct (Z.ltb_spec (Z.of_nat p) 0); [lia|].
  by rewrite Nat2Z.id.
Qed.

Lemma at_index_Some {A : Type} (l : list A) (i : Z) (x : A) :
  at_index l i = Some x <-> 0 <= i /\ l !! Z.to_nat i = Some x.
Proof.
  unfold at_index. destruct (Z.ltb_spec i 0); [|tauto].
  split; [done | lia].
Qed.

Lemma at_index_None {A : Type} (l : list A) (i : Z) :
  at_index l i = None <-> i < 0 \/ len l <= i.
Proof.
  unfold at_index, len. destruct (Z.ltb_spec i 0).
  - split; [intros _; by left | done].
  - rewrite lookup_ge_None. lia.
Qed.

Lemma assign_nat {A : Type} (l : list A) (p : nat) (x : A) :
  (p < length l)%nat -> assign l (Z.of_nat p) x = Some (<[p := x]> l).
Proof.
  intros Hp. unfold assign, len.
  destruct (Z.leb_spec 0 (Z.of_nat p)); [|lia].
  destruct (Z.ltb_spec (Z.of_nat p) (Z.of_nat (length l))); [|lia].
  simpl. by rewrite Nat2Z.id.
Qed.

Lemma assign_None {A : Type} (l : list A) (i : Z) (x : A) :
  assign l i x = None <-> i < 0 \/ len l <= i.
Proof.
  unfold assign.
  destruct (Z.leb_spec 0 i), (Z.ltb_spec i (len l)); simpl; split;
    intros; try done; lia.
Qed.

Lemma swap_nat {A : Type} (l : list A) (p q : nat) (a b : A) :
  l !! p = Some a -> l !! q = Some b ->
  swap l (Z.of_nat p) (Z.of_nat q) = Some (<[q := a]> (<[p := b]> l)).
Proof.
  intros Hp Hq. unfold swap. rewrite !at_index_nat, Hp, Hq.
  rewrite assign_nat by (by eapply lookup_lt_Some).
  rewrite assign_nat; [done|].
  rewrite length_insert. by eapply lookup_lt_Some.
Qed.

Lemma reslice_last {A : Type} (l : list A) :
  l <> [] -> reslice l (len l - 1) = Some (take (length l - 1) l).
Proof.
  intros Hl. unfold reslice, len.
  assert (0 < length l)%nat by (destruct l; [done | simpl; lia]).
  destruct (Z.leb_spec 0 (Z.of_nat (length l) - 1)); [|lia].
  destruct (Z.leb_spec (Z.of_nat (length l) - 1) (Z.of_nat (length l))); [|lia].
  simpl. do 2 f_equal. lia.
Qed.

(** ** The operations, case by case *)

Section Proofs.

Context {T : Type} {E : GoEnv T}.

#[local] Abbreviation SIV := (SIV T).

Implicit Types (s : SIV) (h : Handle) (m : metadata) (p : nat) (v : T).

Lemma siv_eq (d d' : list T) (c c' : nat) (ix ix' : list Z)
    (ms ms' : list metadata) :
  d = d' -> c = c' -> ix = ix' -> ms = ms' ->
  mkSIV d c ix ms = mkSIV d' c' ix' ms'.
Proof. by intros -> -> -> ->. Qed.

Lemma findID_out s h :
  rid h < 0 \/ len (indices s) <= rid h ->
  findID h s = Some ((0, Some ErrInvalid), s).
Proof.
  intros Hout. unfold findID. mred. rewrite Z.geb_leb.
  destruct (Z.ltb_spec (rid h) 0); [done|].
  destruct (Z.leb_spec (len (indices s)) (rid h)); [done | lia].
Qed.

Lemma slot_of_exists s h :
  wf s -> 0 <= rid h < len (indices s) -> exists p m, slot_of s h p m.
Proof.
  intros Hwf [H0 Hlt]. unfold len in Hlt.
  destruct (lookup_lt_is_Some_2 (indices s) (Z.to_nat (rid h))) as [i Hi]; [lia|].
  destruct (wf_idx _ Hwf _ _ Hi) as [Hi0 (m & Hm & _)].
  exists (Z.to_nat i), m. unfold slot_of. rewrite Z2Nat.id by done. done.
Qed.

Lemma slot_of_bounds s h p m :
  slot_of s h p m -> 0 <= rid h < len (indices s).
Proof.
  intros (H0 & Hi & _). apply lookup_lt_Some in Hi. unfold len. lia.
Qed.

Lemma slot_of_rid s h p m : wf s -> slot_of s h p m -> rid m = rid h.
Proof.
  intros Hwf (H0 & Hi & Hm).
  destruct (wf_idx _ Hwf _ _ Hi) as [_ (m' & Hm' & Hr)].
  rewrite Nat2Z.id in Hm'. rewrite Hm in Hm'. injection Hm' as <-. lia.
Qed.

Lemma slot_of_fun s h p m p' m' :
  slot_of s h p m -> slot_of s h p' m' -> p = p' /\ m = m'.
Proof.
  intros (_ & Hi & Hm) (_ & Hi' & Hm').
  rewrite Hi in Hi'. injection Hi' as Hp%Nat2Z.inj. subst p'.
  rewrite Hm in Hm'. by injection Hm'.
Qed.

Lemma findID_slot s h p m :
  slot_of s h p m ->
  findID h s =
    Some (if vid m =? vid h then (Z.of_nat p, None) else (0, Some ErrExpired), s).
Proof.
  intros Hs. pose proof (slot_of_bounds _ _ _ _ Hs) as Hb.
  destruct Hs as (H0 & Hi & Hm).
  unfold findID. mred. rewrite Z.geb_leb.
  destruct (Z.ltb_spec (rid h) 0); [lia|].
  destruct (Z.leb_spec (len (indices s)) (rid h)); [lia|]. simpl.
  assert (at_index (indices s) (rid h) = Some (Z.of_nat p)) as ->
    by (by apply at_index_Some).
  rewrite at_index_nat, Hm. by destruct (vid m =? vid h).
Qed.

Lemma Get_out s h :
  rid h < 0 \/ len (indices s) <= rid h ->
  Get h s = Some ((zero, Some ErrInvalid), s).
Proof. intros H. unfold Get. mred. by rewrite findID_out. Qed.

Lemma Get_slot s h p m :
  slot_of s h p m ->
  Get h s =
    if vid m =? vid h then
      match data s !! p with
      | Some item => Some ((item, None), s)
      | None => None
      end
    else Some ((zero, Some ErrExpired), s).
Proof.
  intros Hs. unfold Get. mred. rewrite (findID_slot _ _ _ _ Hs).
  destruct (vid m =? vid h); [|done].
  rewrite at_index_nat. by destruct (data s !! p).
Qed.

Lemma Set_out s h v :
  rid h < 0 \/ len (indices s) <= rid h ->
  Set_ h v s = Some ((zero, Some ErrInvalid), s).
Proof. intros H. unfold Set_. mred. by rewrite findID_out. Qed.

Lemma Set_slot s h v p m :
  slot_of s h p m ->
  Set_ h v s =
    if vid m =? vid h then
      match data s !! p with
      | Some old =>
          Some ((old, None),
                mkSIV (<[p := v]> (data s)) (dcap s) (indices s) (meta s))
      | None => None
      end
    else Some ((zero, Some ErrExpired), s).
Proof.
  intros Hs. unfold Set_. mred. rewrite (findID_slot _ _ _ _ Hs).
  destruct (vid m =? vid h); [|done].
  rewrite at_index_nat. destruct (data s !! p) eqn:Hd; [|done].
  rewrite assign_nat by (by eapply lookup_lt_Some). done.
Qed.

Lemma Remove_out s h :
  rid h < 0 \/ len (indices s) <= rid h ->
  Remove h s = Some ((zero, Some ErrInvalid), s).
Proof. intros H. unfold Remove. mred. by rewrite findID_out. Qed.

Lemma Remove_slot_expired s h p m :
  slot_of s h p m -> vid m <> vid h ->
  Remove h s = Some ((zero, Some ErrExpired), s).
Proof.
  intros Hs Hne. unfold Remove. mred. rewrite (findID_slot _ _ _ _ Hs).
  by destruct (Z.eqb_spec (vid m) (vid h)).
Qed.

Lemma Remove_slot_panic s h p m :
  slot_of s h p m -> vid m = vid h -> (length (data s) <= p)%nat ->
  Remove h s = None.
Proof.
  intros Hs Heq Hp. unfold Remove. mred. rewrite (findID_slot _ _ _ _ Hs).
  rewrite Heq, Z.eqb_refl, at_index_nat.
  by rewrite (proj2 (lookup_ge_None _ _) Hp).
Qed.

Lemma Remove_slot_ok s h p m :
  wf s -> slot_of s h p m -> vid m = vid h -> (p < length (data s))%nat ->
  exists item last m2,
    data s !! p = Some item /\
    data s !! (length (data s) - 1)%nat = Some last /\
    meta s !! (length (data s) - 1)%nat = Some m2 /\
    Remove h s = Some ((item, None), removed s p last m m2).
Proof.
  intros Hwf Hs Heq Hp.
  pose proof (slot_of_rid _ _ _ _ Hwf Hs) as Hrid.
  pose proof (wf_len_data _ Hwf) as Hld.
  set (p2 := (length (data s) - 1)%nat).
  destruct (lookup_lt_is_Some_2 (data s) p) as [item Hitem]; [lia|].
  destruct (lookup_lt_is_Some_2 (data s) p2) as [last Hlast]; [lia|].
  destruct (lookup_lt_is_Some_2 (meta s) p2) as [m2 Hm2]; [lia|].
  exists item, last, m2. do 3 (split; [done|]).
  destruct Hs as (H0 & Hi & Hm).
  destruct (wf_meta _ Hwf _ _ Hm2) as [H20 Hi2].
  unfold Remove. mred.
  rewrite (findID_slot s h p m) by done.
  rewrite Heq, Z.eqb_refl, at_index_nat, Hitem.
  replace (len (data s) - 1) with (Z.of_nat p2) by (unfold len; lia).
  rewrite at_index_nat, Hm2.
  assert (data s <> []) as Hne by (intros E'; rewrite E' in Hp; simpl in Hp; lia).
  destruct (Z.eqb_spec (Z.of_nat p) (Z.of_nat p2)) as [Hpp|Hpp]; simpl.
  - apply Nat2Z.inj in Hpp. subst p. mred.
    rewrite at_index_nat, Hm2.
    rewrite assign_nat by (by eapply lookup_lt_Some). mred.
    rewrite reslice_last by done. fold p2.
    rewrite Hm in Hm2. injection Hm2 as <-.
    rewrite Hitem in Hlast. injection Hlast as <-.
    unfold removed. fold p2. do 2 f_equal. apply siv_eq; mred; try done.
    + by rewrite take_insert_ge.
    + rewrite Hrid, list_insert_insert_eq. by rewrite list_insert_id.
    + by rewrite (list_insert_id (meta s) p2 m).
  - rewrite (swap_nat _ _ _ _ _ Hitem Hlast). mred.
    rewrite (swap_nat _ _ _ _ _ Hm Hm2). mred.
    rewrite <- (Z2Nat.id (rid h)) by done.
    rewrite <- (Z2Nat.id (rid m2)) by done.
    rewrite (swap_nat _ _ _ _ _ Hi Hi2). mred.
    rewrite at_index_nat.
    assert (p2 < length (<[p := m2]> (meta s)))%nat as Hp2
      by (rewrite length_insert; lia).
    rewrite list_lookup_insert_eq by done.
    rewrite assign_nat by (by rewrite length_insert). mred.
    assert (<[p2 := item]> (<[p := last]> (data s)) <> []) as Hne'.
    { intros E'. apply (f_equal length) in E'.
      rewrite !length_insert in E'. simpl in E'. lia. }
    rewrite reslice_last by done. rewrite !length_insert. fold p2.
    unfold removed. fold p2. do 2 f_equal. apply siv_eq; mred; try done.
    + by rewrite take_insert_ge.
    + by rewrite Hrid.
    + by rewrite list_insert_insert_eq.
Qed.

Lemma Put_reuse s v m :
  meta s !! length (data s) = Some m ->
  Put v s = Some (bump m, reused s v m).
Proof.
  intros Hm. pose proof (lookup_lt_Some _ _ _ Hm) as Hlt.
  unfold Put. mred. rewrite Z.gtb_ltb.
  destruct (Z.ltb_spec (len (data s)) (len (meta s))); [|unfold len in *; lia].
  unfold len at 1 2. rewrite at_index_nat, Hm.
  rewrite assign_nat by done. mred.
  unfold len. rewrite at_index_nat, list_lookup_insert_eq by done. done.
Qed.

Lemma Put_fresh s v :
  (length (meta s) <= length (data s))%nat ->
  Put v s = Some (mk_meta (len (data s)) 0, extended s v).
Proof.
  intros Hle. unfold Put. mred. rewrite Z.gtb_ltb.
  destruct (Z.ltb_spec (len (data s)) (len (meta s))); [unfold len in *; lia|].
  done.
Qed.

(** ** The representation invariant *)

Lemma wf_new (c : nat) : wf (new_container (T:=T) c).
Proof. constructor; simpl; try done; lia. Qed.

Lemma wf_data s (d : list T) (c : nat) :
  wf s -> length d = length (data s) ->
  wf (mkSIV d c (indices s) (meta s)).
Proof.
  intros [Hli Hld Hmeta Hidx Hgen] Hd.
  constructor; cbn [data indices meta]; rewrite ?Hd; done.
Qed.

Lemma wf_extended s v :
  wf s -> (length (meta s) <= length (data s))%nat -> wf (extended s v).
Proof.
  intros [Hli Hld Hmeta Hidx Hgen] Hle.
  assert (length (meta s) = length (data s)) as Hlen by lia.
  constructor; unfold extended, len; cbn [data indices meta].
  - rewrite !length_app. simpl. lia.
  - rewrite !length_app. simpl. lia.
  - intros q m [[_ Hq] | [Hq <-]]%lookup_snoc_Some.
    + destruct (Hmeta _ _ Hq) as [Hr Hi]. split; [done|].
      by apply lookup_app_l_Some.
    + simpl. split; [lia|]. rewrite Nat2Z.id, Hq, <- Hlen, <- Hli.
      by rewrite list_lookup_middle.
  - intros r i [[_ Hr] | [Hr <-]]%lookup_snoc_Some.
    + destruct (Hidx _ _ Hr) as [Hi (m & Hm & Hrm)]. split; [done|].
      exists m. split; [|done]. by apply lookup_app_l_Some.
    + split; [lia|]. rewrite Nat2Z.id. exists (mk_meta (Z.of_nat (length (data s))) 0).
      split; [|simpl; lia]. rewrite <- Hlen. by rewrite list_lookup_middle.
  - intros q m [[_ Hq] | [Hq <-]]%lookup_snoc_Some.
    + destruct (Hgen _ _ Hq) as [Hr He]. split; [done|].
      rewrite length_app. simpl.
      pose proof (lookup_lt_Some _ _ _ Hq). rewrite He. lia.
    + simpl. split; [unfold int_min, int_max; lia|].
      rewrite length_app. simpl. split; [lia | done].
Qed.

Lemma wf_reused s v m :
  wf s -> meta s !! length (data s) = Some m -> wf (reused s v m).
Proof.
  intros [Hli Hld Hmeta Hidx Hgen] Hm.
  pose proof (lookup_lt_Some _ _ _ Hm) as Hlt.
  constructor; unfold reused; cbn [data indices meta].
  - by rewrite length_insert.
  - rewrite length_insert, length_app. simpl. lia.
  - intros q m' [(<- & <- & _) | [Hne Hq]]%list_lookup_insert_Some.
    + apply (Hmeta _ _ Hm).
    + apply (Hmeta _ _ Hq).
  - intros r i Hr. destruct (Hidx _ _ Hr) as [Hi (m' & Hm' & Hrm)].
    split; [done|].
    destruct (decide (Z.to_nat i = length (data s))) as [Heq|Hne].
    + rewrite Heq in Hm' |- *. rewrite Hm in Hm'. injection Hm' as <-.
      exists (bump m). by rewrite list_lookup_insert_eq.
    + exists m'. by rewrite list_lookup_insert_ne.
  - intros q m' [(<- & <- & _) | [Hne Hq]]%list_lookup_insert_Some.
    + destruct (Hgen _ _ Hm) as [Hr He]. simpl. split; [apply incr_range|].
      rewrite incr_even, length_app. simpl.
      assert (Z.even (vid m) = false) as ->.
      { destruct (Z.even (vid m)); [|done].
        exfalso. apply (Nat.lt_irrefl (length (data s))), He. done. }
      simpl. split; [lia | done].
    + destruct (Hgen _ _ Hq) as [Hr He]. split; [done|].
      rewrite length_app. simpl. rewrite He. lia.
Qed.

Lemma wf_removed s p last m1 m2 :
  wf s -> (p < length (data s))%nat ->
  meta s !! p = Some m1 ->
  meta s !! (length (data s) - 1)%nat = Some m2 ->
  wf (removed s p last m1 m2).
Proof.
  intros [Hli Hld Hmeta Hidx Hgen] Hp Hm1 Hm2.
  unfold removed. set (p2 := (length (data s) - 1)%nat) in *.
  destruct (Hmeta _ _ Hm1) as [Hr1 Hi1]. destruct (Hmeta _ _ Hm2) as [Hr2 Hi2].
  pose proof (lookup_lt_Some _ _ _ Hi1) as Hlt1.
  pose proof (lookup_lt_Some _ _ _ Hi2) as Hlt2.
  assert (Z.to_nat (rid m1) = Z.to_nat (rid m2) -> p = p2) as Hinj.
  { intros Heq. rewrite Heq, Hi2 in Hi1. injection Hi1. lia. }
  assert (p = p2 -> m1 = m2) as Hsame.
  { intros ->. rewrite Hm1 in Hm2. by injection Hm2. }
  constructor; cbn [data indices meta].
  - by rewrite !length_insert.
  - rewrite length_take, !length_insert. lia.
  - intros q m [(<- & <- & _) | [Hne Hq]]%list_lookup_insert_Some.
    + simpl. split; [done|]. rewrite list_lookup_insert. case_decide as Hd.
      * destruct Hd as [Heq _]. symmetry in Heq. by rewrite (Hinj Heq).
      * by rewrite list_lookup_insert_eq.
    + apply list_lookup_insert_Some in Hq as [(<- & <- & _) | [Hne' Hq]].
      * split; [done|]. rewrite list_lookup_insert_eq; [done|].
        by rewrite length_insert.
      * destruct (Hmeta _ _ Hq) as [Hr Hi]. split; [done|].
        rewrite !list_lookup_insert_ne; [done | |].
        -- intros Heq. rewrite Heq, Hi in Hi1. injection Hi1. lia.
        -- intros Heq. rewrite Heq, Hi in Hi2. injection Hi2. lia.
  - intros r i [(<- & <- & _) | [Hne Hr]]%list_lookup_insert_Some.
    + split; [lia|]. rewrite Nat2Z.id.
      destruct (decide (p = p2)) as [Hpp|Hpp].
      * exists (bump m1). rewrite Hpp at 1.
        rewrite list_lookup_insert_eq by (rewrite length_insert; lia).
        split; [done|]. simpl. rewrite (Hsame Hpp). lia.
      * exists m2. rewrite list_lookup_insert_ne by done.
        rewrite list_lookup_insert_eq by lia. split; [done | lia].
    + apply list_lookup_insert_Some in Hr as [(<- & <- & _) | [Hne' Hr]].
      * split; [lia|]. rewrite Nat2Z.id. exists (bump m1).
        rewrite list_lookup_insert_eq by (rewrite length_insert; lia).
        split; [done | simpl; lia].
      * destruct (Hidx _ _ Hr) as [Hi0 (m & Hm & Hrm)]. split; [done|].
        exists m. split; [|done].
        rewrite !list_lookup_insert_ne; [done | |].
        -- intros Heq. rewrite Heq, Hm in Hm1. injection Hm1 as <-. lia.
        -- intros Heq. rewrite Heq, Hm in Hm2. injection Hm2 as <-. lia.
  - rewrite length_take, !length_insert.
    intros q m [(<- & <- & _) | [Hne Hq]]%list_lookup_insert_Some.
    + simpl. split; [apply incr_range|].
      destruct (Hgen _ _ Hm1) as [_ He]. rewrite incr_even.
      rewrite (proj2 He Hp). simpl. split; [done | lia].
    + apply list_lookup_insert_Some in Hq as [(<- & <- & _) | [Hne' Hq]].
      * destruct (Hgen _ _ Hm2) as [Hr He]. split; [done|].
        rewrite He. lia.
      * destruct (Hgen _ _ Hq) as [Hr He]. split; [done|].
        rewrite He. lia.
Qed.

Lemma wf_trans s s' : wf s -> trans s s' -> wf s'.
Proof.
  intros Hwf [| p v | v m Hm | v Hle | p last m1 m2 Hp Hm1 Hm2].
  - done.
  - apply wf_data; [done|]. by rewrite length_insert.
  - by apply wf_reused.
  - by apply wf_extended.
  - by apply wf_removed.
Qed.

(** ** What each operation does to a well-formed state *)

Lemma Put_cases s v :
  wf s ->
  (exists m, meta s !! length (data s) = Some m /\
     Put v s = Some (bump m, reused s v m)) \/
  ((length (meta s) <= length (data s))%nat /\
     Put v s = Some (mk_meta (len (data s)) 0, extended s v)).
Proof.
  intros Hwf. destruct (meta s !! length (data s)) as [m|] eqn:Hm.
  - left. exists m. split; [done|]. by apply Put_reuse.
  - right. apply lookup_ge_None in Hm. split; [done|]. by apply Put_fresh.
Qed.

Lemma Remove_cases s h x e s' :
  wf s -> Remove h s = Some ((x, e), s') ->
  (exists err, e = Some err /\ x = zero /\ s' = s) \/
  (e = None /\ exists p last m m2,
     slot_of s h p m /\ vid m = vid h /\ (p < length (data s))%nat /\
     data s !! p = Some x /\
     data s !! (length (data s) - 1)%nat = Some last /\
     meta s !! (length (data s) - 1)%nat = Some m2 /\
     s' = removed s p last m m2).
Proof.
  intros Hwf Hrm.
  destruct (decide (0 <= rid h < len (indices s))) as [Hin|Hout].
  - destruct (slot_of_exists _ _ Hwf Hin) as (p & m & Hs).
    destruct (decide (vid m = vid h)) as [Hv|Hv].
    + destruct (decide (p < length (data s))%nat) as [Hp|Hp].
      * destruct (Remove_slot_ok _ _ _ _ Hwf Hs Hv Hp)
          as (item & last & m2 & Hitem & Hlast & Hm2 & Hrm').
        rewrite Hrm' in Hrm. injection Hrm as <- <- <-.
        right. split; [done|]. by exists p, last, m, m2.
      * rewrite (Remove_slot_panic _ _ _ _ Hs Hv) in Hrm by lia. done.
    + rewrite (Remove_slot_expired _ _ _ _ Hs Hv) in Hrm.
      injection Hrm as <- <- <-. left. by exists ErrExpired.
  - rewrite Remove_out in Hrm by lia.
    injection Hrm as <- <- <-. left. by exists ErrInvalid.
Qed.

Lemma slot_of_last s m :
  wf s -> meta s !! (length (data s) - 1)%nat = Some m ->
  slot_of s m (length (data s) - 1)%nat m.
Proof.
  intros Hwf Hm. destruct (wf_meta _ Hwf _ _ Hm) as [H0 Hi]. by split.
Qed.

Lemma Pop_empty s : data s = [] -> Pop s = None.
Proof. intros Hd. unfold Pop. mred. by rewrite Hd. Qed.

Lemma Pop_nonempty s :
  wf s -> data s <> [] ->
  exists m item,
    meta s !! (length (data s) - 1)%nat = Some m /\
    data s !! (length (data s) - 1)%nat = Some item /\
    Remove m s =
      Some ((item, None), removed s (length (data s) - 1)%nat item m m) /\
    Pop s = Some (item, removed s (length (data s) - 1)%nat item m m).
Proof.
  intros Hwf Hne.
  assert (0 < length (data s))%nat as Hpos
    by (destruct (data s); [done | simpl; lia]).
  pose proof (wf_len_data _ Hwf) as Hld.
  destruct (lookup_lt_is_Some_2 (meta s) (length (data s) - 1)) as [m Hm]; [lia|].
  destruct (Remove_slot_ok s m _ m Hwf (slot_of_last _ _ Hwf Hm) eq_refl)
    as (item & last & m2 & Hitem & Hlast & Hm2 & Hrm); [lia|].
  rewrite Hitem in Hlast. injection Hlast as <-.
  rewrite Hm in Hm2. injection Hm2 as <-.
  exists m, item. do 3 (split; [done|]).
  unfold Pop. mred.
  destruct (Z.eqb_spec (len (data s)) 0) as [H0|_]; [unfold len in H0; lia|].
  replace (len (data s) - 1) with (Z.of_nat (length (data s) - 1))
    by (unfold len; lia).
  rewrite at_index_nat, Hm. by rewrite Hrm.
Qed.

Lemma exec_trans s o r s' : wf s -> exec o s = Some (r, s') -> trans s s'.
Proof.
  intros Hwf. destruct o as [v | h | h v | h | | | | y | y]; unfold exec; mred.
  - destruct (Put_cases s v Hwf) as [(m & Hm & ->) | [Hle ->]];
      intros [= <- <-].
    + by apply trans_reuse.
    + by apply trans_extend.
  - destruct (decide (0 <= rid h < len (indices s))) as [Hin|Hout].
    + destruct (slot_of_exists _ _ Hwf Hin) as (p & m & Hs).
      rewrite (Get_slot _ _ _ _ Hs).
      destruct (vid m =? vid h); [destruct (data s !! p)|];
        intros [= <- <-]; apply trans_same.
    + rewrite Get_out by lia. intros [= <- <-]. apply trans_same.
  - destruct (decide (0 <= rid h < len (indices s))) as [Hin|Hout].
    + destruct (slot_of_exists _ _ Hwf Hin) as (p & m & Hs).
      rewrite (Set_slot _ _ _ _ _ Hs).
      destruct (vid m =? vid h); [destruct (data s !! p)|];
        intros [= <- <-]; [apply trans_set | apply trans_same].
    + rewrite Set_out by lia. intros [= <- <-]. apply trans_same.
  - destruct (Remove h s) as [[[x e] s1]|] eqn:Hrm; [|done].
    intros [= <- <-].
    destruct (Remove_cases _ _ _ _ _ Hwf Hrm)
      as [(err & _ & _ & ->) | (_ & p & last & m & m2 & Hs & _ & Hp & _ & _ & Hm2 & ->)].
    + apply trans_same.
    + destruct Hs as (_ & _ & Hm). by apply trans_remove.
  - destruct (decide (data s = [])) as [Hd|Hd].
    + by rewrite Pop_empty.
    + destruct (Pop_nonempty s Hwf Hd) as (m & item & Hm & Hitem & _ & ->).
      intros [= <- <-].
      apply trans_remove; [|done|done].
      apply lookup_lt_Some in Hitem. lia.
  - unfold Len. mred. intros [= <- <-]. apply trans_same.
  - unfold Cap. mred. intros [= <- <-]. apply trans_same.
  - unfold Iter. mred. intros [= <- <-]. apply trans_same.
  - unfold Iter2. mred.
    destruct (range_loop2 y (meta s) 0 (data s)); intros [= <- <-].
    apply trans_same.
Qed.

Lemma run_cons (o : op) (ops : list op) s :
  run (o :: ops) s =
    match exec o s with
    | Some (r, s1) =>
        match run ops s1 with
        | Some (rs, s2) => Some (r :: rs, s2)
        | None => None
        end
    | None => None
    end.
Proof.
  simpl. unfold bind, ret. destruct (exec o s) as [[r s1]|]; [|done].
  by destruct (run ops s1) as [[rs s2]|].
Qed.

Lemma run_app (ops1 ops2 : list op) s :
  run (ops1 ++ ops2) s =
    match run ops1 s with
    | Some (rs1, s1) =>
        match run ops2 s1 with
        | Some (rs2, s2) => Some (rs1 ++ rs2, s2)
        | None => None
        end
    | None => None
    end.
Proof.
  revert s. induction ops1 as [|o ops1 IH]; intros s.
  - simpl. unfold ret. by destruct (run ops2 s) as [[rs2 s2]|].
  - rewrite <- app_comm_cons, !run_cons.
    destruct (exec o s) as [[r s1]|]; [|done]. rewrite IH.
    destruct (run ops1 s1) as [[rs1 s2]|]; [|done].
    by destruct (run ops2 s2) as [[rs2 s3]|].
Qed.

Lemma run_wf (ops : list op) s rs s' :
  wf s -> run ops s = Some (rs, s') -> wf s'.
Proof.
  revert s rs. induction ops as [|o ops IH]; intros s rs Hwf.
  - simpl. unfold ret. by intros [= <- <-].
  - rewrite run_cons. destruct (exec o s) as [[r s1]|] eqn:Hex; [|done].
    destruct (run ops s1) as [[rs1 s2]|] eqn:Hrun; [|done].
    intros [= <- <-]. eapply IH; [|done].
    eapply wf_trans; [done|]. by eapply exec_trans.
Qed.

Lemma reachable_wf s : reachable s -> wf s.
Proof.
  intros (c & ops & rs & Hrun). eapply run_wf; [|done]. apply wf_new.
Qed.

(** ** Handle validation *)

Lemma slot_of_at_index s h p m :
  slot_of s h p m ->
  at_index (indices s) (rid h) = Some (Z.of_nat p) /\
  at_index (meta s) (Z.of_nat p) = Some m.
Proof.
  intros (H0 & Hi & Hm). split.
  - by apply at_index_Some.
  - by rewrite at_index_nat.
Qed.

Lemma slot_of_even s h p m :
  wf s -> slot_of s h p m -> vid m = vid h ->
  Z.even (vid h) = true <-> (p < length (data s))%nat.
Proof.
  intros Hwf (_ & _ & Hm) <-. apply (wf_gen _ Hwf _ _ Hm).
Qed.

Lemma validated_intro s h (f : M T (T * option error)) :
  wf s ->
  (out_of_bounds s h -> f s = Some ((zero, Some ErrInvalid), s)) ->
  (forall p m, slot_of s h p m -> vid m <> vid h ->
     f s = Some ((zero, Some ErrExpired), s)) ->
  (forall p m item, slot_of s h p m -> vid m = vid h ->
     data s !! p = Some item -> exists s', f s = Some ((item, None), s')) ->
  (forall p m, slot_of s h p m -> vid m = vid h ->
     data s !! p = None -> f s = None) ->
  validated s h f.
Proof.
  intros Hwf Hout Hexp Hok Hpanic.
  destruct (decide (0 <= rid h < len (indices s))) as [Hin|Hnin].
  - destruct (slot_of_exists _ _ Hwf Hin) as (p & m & Hs).
    destruct (slot_of_at_index _ _ _ _ Hs) as [Hai Ham].
    assert (~ out_of_bounds s h) as Hno by (unfold out_of_bounds; lia).
    destruct (decide (vid m = vid h)) as [Hv|Hv].
    + assert (~ stale s h) as Hns.
      { intros (i & m' & Hi' & Hm' & Hne). rewrite Hai in Hi'.
        injection Hi' as <-. rewrite Ham in Hm'. by injection Hm' as <-. }
      assert (forall i, resolves s h i -> i = Z.of_nat p) as Hres.
      { intros i [Hi' _]. rewrite Hai in Hi'. by injection Hi'. }
      destruct (data s !! p) as [item|] eqn:Hd.
      * destruct (Hok _ _ _ Hs Hv Hd) as [s' Hf].
        assert (Z.even (vid h) = true) as Hev.
        { apply (slot_of_even _ _ _ _ Hwf Hs Hv). by eapply lookup_lt_Some. }
        repeat split; try (rewrite Hf; by intros (? & ? & ?)); try done.
        -- intros x e s1. by rewrite Hf.
        -- intros [s1 Hs1]. rewrite Hf in Hs1. injection Hs1 as <- <-.
           exists (Z.of_nat p). rewrite at_index_nat.
           repeat split; try done. by exists m.
        -- intros (i & Hr & _ & Hitem). rewrite (Hres _ Hr), at_index_nat in Hitem.
           rewrite Hd in Hitem. injection Hitem as <-. by exists s'.
      * pose proof (Hpanic _ _ Hs Hv Hd) as Hf.
        repeat split; try (rewrite Hf; by intros (? & ? & ?)); try done.
        -- intros x e s1. by rewrite Hf.
        -- intros [s1 Hs1]. by rewrite Hf in Hs1.
        -- intros (i & Hr & _ & Hitem). rewrite (Hres _ Hr), at_index_nat in Hitem.
           by rewrite Hd in Hitem.
    + pose proof (Hexp _ _ Hs Hv) as Hf.
      repeat split; try (rewrite Hf; by intros (? & ? & ?)); try done.
      * intros _. by exists (Z.of_nat p), m.
      * intros _. by exists zero, s.
      * intros x e s1. rewrite Hf. by intros [= _ _ <-].
      * intros [s1 Hs1]. by rewrite Hf in Hs1.
      * intros (i & [Hi' (m' & Hm' & Hv')] & _). rewrite Hai in Hi'.
        injection Hi' as <-. rewrite Ham in Hm'. by injection Hm' as <-.
  - assert (out_of_bounds s h) as Ho by (unfold out_of_bounds; lia).
    pose proof (Hout Ho) as Hf.
    assert (at_index (indices s) (rid h) = None) as Hnone
      by (by apply at_index_None).
    repeat split; try (rewrite Hf; by intros (? & ? & ?)); try done.
    + intros _. by exists zero, s.
    + intros (i & m & Hi' & _). by rewrite Hnone in Hi'.
    + intros x e s1. rewrite Hf. by intros [= _ _ <-].
    + intros [s1 Hs1]. by rewrite Hf in Hs1.
    + intros (i & [Hi' _] & _). by rewrite Hnone in Hi'.
Qed.

Lemma validated_Get s h : wf s -> validated s h (Get h).
Proof.
  intros Hwf. apply validated_intro; [done|..].
  - apply Get_out.
  - intros p m Hs Hv. rewrite (Get_slot _ _ _ _ Hs).
    by destruct (Z.eqb_spec (vid m) (vid h)).
  - intros p m item Hs Hv Hd. exists s. rewrite (Get_slot _ _ _ _ Hs).
    by rewrite Hv, Z.eqb_refl, Hd.
  - intros p m Hs Hv Hd. rewrite (Get_slot _ _ _ _ Hs).
    by rewrite Hv, Z.eqb_refl, Hd.
Qed.

Lemma validated_Set s h v : wf s -> validated s h (Set_ h v).
Proof.
  intros Hwf. apply validated_intro; [done|..].
  - apply Set_out.
  - intros p m Hs Hv. rewrite (Set_slot _ _ _ _ _ Hs).
    by destruct (Z.eqb_spec (vid m) (vid h)).
  - intros p m item Hs Hv Hd. rewrite (Set_slot _ _ _ _ _ Hs).
    rewrite Hv, Z.eqb_refl, Hd. by eexists.
  - intros p m Hs Hv Hd. rewrite (Set_slot _ _ _ _ _ Hs).
    by rewrite Hv, Z.eqb_refl, Hd.
Qed.

Lemma validated_Remove s h : wf s -> validated s h (Remove h).
Proof.
  intros Hwf. apply validated_intro; [done|..].
  - apply Remove_out.
  - intros p m Hs Hv. by apply (Remove_slot_expired _ _ _ _ Hs).
  - intros p m item Hs Hv Hd.
    destruct (Remove_slot_ok _ _ _ _ Hwf Hs Hv)
      as (item' & last & m2 & Hitem & _ & _ & ->); [by eapply lookup_lt_Some|].
    rewrite Hd in Hitem. injection Hitem as <-. by eexists.
  - intros p m Hs Hv Hd. apply (Remove_slot_panic _ _ _ _ Hs Hv).
    by apply lookup_ge_None.
Qed.

(** ** Invariants of the reachable states *)

(** C2: in every state reached by any operations, each occupied position
    [p] satisfies [indices[meta[p].rid] = p], and the indirection table is
    at least as long as the item sequence, the surplus being the number of
    freed, not yet reused slots. *)
Theorem C2_indirection_invariant s :
  reachable s ->
  (forall p, (p < length (data s))%nat ->
     exists m, at_index (meta s) (Z.of_nat p) = Some m /\
               at_index (indices s) (rid m) = Some (Z.of_nat p)) /\
  len (data s) <= len (indices s) /\
  len (indices s) - len (data s) = len (freed_slots s).
Proof.
  intros Hwf%reachable_wf.
  pose proof (wf_len_idx _ Hwf) as Hli. pose proof (wf_len_data _ Hwf) as Hld.
  split; [|split].
  - intros p Hp.
    destruct (lookup_lt_is_Some_2 (meta s) p) as [m Hm]; [lia|].
    exists m. rewrite at_index_nat. split; [done|].
    destruct (wf_meta _ Hwf _ _ Hm) as [H0 Hi]. by apply at_index_Some.
  - unfold len. lia.
  - unfold freed_slots, len. rewrite length_drop. lia.
Qed.

(** C3 (amended): in every state reached by any operations, the item
    sequence is at most as long as the slot-metadata sequence, which is
    exactly as long as the indirection table; the metadata exceeds the
    items by the freed, not yet reused slots. *)
Theorem C3_lengths s :
  reachable s ->
  len (data s) <= len (meta s) /\
  len (meta s) = len (indices s) /\
  len (meta s) = len (data s) + len (freed_slots s).
Proof.
  intros Hwf%reachable_wf.
  pose proof (wf_len_idx _ Hwf) as Hli. pose proof (wf_len_data _ Hwf) as Hld.
  unfold freed_slots, len. rewrite length_drop. lia.
Qed.

Lemma findID_ok_inv s h id s' :
  wf s -> findID h s = Some ((id, None), s') ->
  exists p m, id = Z.of_nat p /\ slot_of s h p m /\ vid m = vid h.
Proof.
  intros Hwf Hf.
  destruct (decide (0 <= rid h < len (indices s))) as [Hin|Hout].
  - destruct (slot_of_exists _ _ Hwf Hin) as (p & m & Hs).
    rewrite (findID_slot _ _ _ _ Hs) in Hf.
    destruct (Z.eqb_spec (vid m) (vid h)); [|done].
    injection Hf as <- <-. by exists p, m.
  - by rewrite findID_out in Hf by lia.
Qed.

(** C10: in every reachable state a slot is freed (at or past the live
    length) exactly when its generation is odd; [Put] always returns, with
    a handle of even generation; so a handle of even generation that
    passes validation resolves below the live length, and [Get], [Set] and
    [Remove] on it do not panic. *)
Theorem C10_generation_parity s :
  reachable s ->
  (forall p m, meta s !! p = Some m ->
     ((length (data s) <= p)%nat <-> Z.odd (vid m) = true)) /\
  (forall v, exists h s', Put v s = Some (h, s') /\ Z.even (vid h) = true) /\
  (forall h id s', Z.even (vid h) = true ->
     findID h s = Some ((id, None), s') -> 0 <= id < len (data s)) /\
  (forall h v, Z.even (vid h) = true ->
     Get h s <> None /\ Set_ h v s <> None /\ Remove h s <> None).
Proof.
  intros Hwf%reachable_wf. split; [|split; [|split]].
  - intros p m Hm. destruct (wf_gen _ Hwf _ _ Hm) as [_ He].
    rewrite <- Z.negb_even. destruct (Z.even (vid m)); simpl.
    + split; [|done]. intros Hle. pose proof (proj1 He eq_refl). lia.
    + split; [done|]. intros _.
      destruct (decide (p < length (data s))%nat) as [Hp|Hp]; [|lia].
      by apply He in Hp.
  - intros v. destruct (Put_cases s v Hwf) as [(m & Hm & ->) | [Hle ->]].
    + do 2 eexists. split; [done|]. simpl. rewrite incr_even.
      destruct (wf_gen _ Hwf _ _ Hm) as [_ He].
      destruct (Z.even (vid m)); [|done].
      pose proof (proj1 He eq_refl). lia.
    + by do 2 eexists.
  - intros h id s' Hev Hf.
    destruct (findID_ok_inv _ _ _ _ Hwf Hf) as (p & m & -> & Hs & Hv).
    apply (slot_of_even _ _ _ _ Hwf Hs Hv) in Hev. unfold len. lia.
  - intros h v Hev.
    assert (forall f, validated s h f -> f s <> None) as Hval.
    { intros f (Hinv & Hexp & _ & Hok) Hnone.
      destruct (decide (0 <= rid h < len (indices s))) as [Hin|Hout].
      - destruct (slot_of_exists _ _ Hwf Hin) as (p & m & Hs).
        destruct (slot_of_at_index _ _ _ _ Hs) as [Hai Ham].
        destruct (decide (vid m = vid h)) as [Hv|Hv].
        + pose proof (proj1 (slot_of_even _ _ _ _ Hwf Hs Hv) Hev) as Hp.
          destruct (lookup_lt_is_Some_2 (data s) p Hp) as [item Hitem].
          destruct (proj2 (Hok item)) as [s' Hs'].
          * exists (Z.of_nat p). rewrite at_index_nat.
            repeat split; try done. by exists m.
          * by rewrite Hnone in Hs'.
        + destruct (proj2 Hexp) as (x & s' & Hs'); [by exists (Z.of_nat p), m|].
          by rewrite Hnone in Hs'.
      - destruct (proj2 Hinv) as (x & s' & Hs'); [unfold out_of_bounds; lia|].
        by rewrite Hnone in Hs'. }
    split; [|split]; apply Hval.
    + by apply validated_Get.
    + by apply validated_Set.
    + by apply validated_Remove.
Qed.

(** C1 (amended): in every reachable state and for every handle, [Get],
    [Set] and [Remove] return [ErrInvalid] exactly when the reference id
    is out of the bounds of the indirection table, [ErrExpired] exactly
    when it is in bounds and the generation stored at
    [meta[indices[rid]]] differs from the handle's, leave the state
    unchanged with either error, and succeed on the item at position
    [indices[rid]] exactly when the stored generation matches and is
    even; a handle of even generation that resolves has an item at its
    position. *)
Theorem C1_handle_validation s h v :
  reachable s ->
  validated s h (Get h) /\ validated s h (Set_ h v) /\
  validated s h (Remove h) /\
  (forall i, resolves s h i -> Z.even (vid h) = true ->
     exists item, at_index (data s) i = Some item).
Proof.
  intros Hwf%reachable_wf. split; [|split; [|split]].
  - by apply validated_Get.
  - by apply validated_Set.
  - by apply validated_Remove.
  - intros i [Hi (m & Hm & Hv)] Hev.
    apply at_index_Some in Hi as [Hr Hi], Hm as [Hi0 Hm].
    assert (slot_of s h (Z.to_nat i) m) as Hs.
    { unfold slot_of. by rewrite Z2Nat.id. }
    pose proof (proj1 (slot_of_even _ _ _ _ Hwf Hs Hv) Hev) as Hp.
    destruct (lookup_lt_is_Some_2 (data s) _ Hp) as [item Hitem].
    exists item. by apply at_index_Some.
Qed.

(** ** Round trips, Pop and the frame of Remove *)

Lemma slot_of_meta s h q m :
  wf s -> meta s !! q = Some m -> rid m = rid h -> slot_of s h q m.
Proof.
  intros Hwf Hm Hr. destruct (wf_meta _ Hwf _ _ Hm) as [H0 Hi].
  rewrite Hr in H0, Hi. by split.
Qed.

Lemma Get_ok_inv s h x s' :
  wf s -> Get h s = Some ((x, None), s') ->
  s' = s /\ exists p m, slot_of s h p m /\ vid m = vid h /\ data s !! p = Some x.
Proof.
  intros Hwf Hg.
  destruct (decide (0 <= rid h < len (indices s))) as [Hin|Hout].
  - destruct (slot_of_exists _ _ Hwf Hin) as (p & m & Hs).
    rewrite (Get_slot _ _ _ _ Hs) in Hg.
    destruct (Z.eqb_spec (vid m) (vid h)); [|done].
    destruct (data s !! p) as [item|] eqn:Hd; [|done].
    injection Hg as <- <-. split; [done|]. by exists p, m.
  - by rewrite Get_out in Hg by lia.
Qed.

Lemma Get_ok s h p m x :
  slot_of s h p m -> vid m = vid h -> data s !! p = Some x ->
  Get h s = Some ((x, None), s).
Proof.
  intros Hs Hv Hd. by rewrite (Get_slot _ _ _ _ Hs), Hv, Z.eqb_refl, Hd.
Qed.

(** C7: for a valid handle [h], [Set(h, v)] succeeds and a following
    [Get(h)] returns [v]; and [Put(v)] followed by [Get] on the handle it
    returned yields [v]. *)
Theorem C7_round_trip s v :
  reachable s ->
  (forall h x, Get h s = Some ((x, None), s) ->
     exists s', Set_ h v s = Some ((x, None), s') /\
                Get h s' = Some ((v, None), s')) /\
  (exists h s', Put v s = Some (h, s') /\ Get h s' = Some ((v, None), s')).
Proof.
  intros Hwf%reachable_wf. split.
  - intros h x Hg.
    destruct (Get_ok_inv _ _ _ _ Hwf Hg) as (_ & p & m & Hs & Hv & Hd).
    rewrite (Set_slot _ _ _ _ _ Hs), Hv, Z.eqb_refl, Hd.
    eexists. split; [done|].
    apply (Get_ok _ _ p m); [done | done |]. cbn [data].
    apply list_lookup_insert_eq. by eapply lookup_lt_Some.
  - destruct (Put_cases s v Hwf) as [(m & Hm & Hput) | [Hle Hput]];
      rewrite Hput; do 2 eexists; (split; [done|]).
    + assert (wf (reused s v m)) as Hwf' by (by apply wf_reused).
      apply (Get_ok _ _ (length (data s)) (bump m)); [|done|].
      * apply slot_of_meta; [done | | done]. unfold reused. cbn [meta].
        apply list_lookup_insert_eq. by eapply lookup_lt_Some.
      * unfold reused. cbn [data]. by apply list_lookup_middle.
    + assert (wf (extended s v)) as Hwf' by (by apply wf_extended).
      pose proof (wf_len_data _ Hwf) as Hld.
      apply (Get_ok _ _ (length (data s)) (mk_meta (len (data s)) 0)); [|done|].
      * apply slot_of_meta; [done | | done]. unfold extended. cbn [meta].
        apply list_lookup_middle. lia.
      * unfold extended. cbn [data]. by apply list_lookup_middle.
Qed.

(** C8: on a non-empty container [Pop] returns the item, and leaves the
    state, that [Remove] returns and leaves when called with the handle
    stored at the last live position, and that item is the last one of the
    item sequence; on an empty container [Pop] panics. *)
Theorem C8_pop s :
  reachable s ->
  (data s = [] -> Pop s = None) /\
  (data s <> [] ->
     exists h item s',
       at_index (meta s) (len (data s) - 1) = Some h /\
       Remove h s = Some ((item, None), s') /\
       Pop s = Some (item, s') /\
       last (data s) = Some item).
Proof.
  intros Hwf%reachable_wf. split.
  - apply Pop_empty.
  - intros Hne.
    destruct (Pop_nonempty s Hwf Hne) as (m & item & Hm & Hitem & Hrm & Hpop).
    exists m, item. eexists. split; [|split; [done | split; [done|]]].
    + assert (0 < length (data s))%nat
        by (destruct (data s); [done | simpl; lia]).
      replace (len (data s) - 1) with (Z.of_nat (length (data s) - 1))
        by (unfold len; lia).
      by rewrite at_index_nat.
    + rewrite last_lookup. by replace (pred (length (data s)))
        with (length (data s) - 1)%nat by lia.
Qed.

(** C5: for distinct live handles [a] and [b], [Remove(a)] succeeds,
    returning [a]'s item, and afterwards [Get(b)] still returns the value
    [b] had, wherever the removal moved it. *)
Theorem C5_remove_frame s a b va vb :
  reachable s -> a <> b ->
  Get a s = Some ((va, None), s) ->
  Get b s = Some ((vb, None), s) ->
  exists s', Remove a s = Some ((va, None), s') /\
             Get b s' = Some ((vb, None), s').
Proof.
  intros Hwf%reachable_wf Hab Hga Hgb.
  destruct (Get_ok_inv _ _ _ _ Hwf Hga) as (_ & pa & ma & Hsa & Hva & Hda).
  destruct (Get_ok_inv _ _ _ _ Hwf Hgb) as (_ & pb & mb & Hsb & Hvb & Hdb).
  pose proof (slot_of_rid _ _ _ _ Hwf Hsa) as Hra.
  pose proof (slot_of_rid _ _ _ _ Hwf Hsb) as Hrb.
  assert (pa <> pb) as Hpp.
  { intros ->. destruct Hsa as (_ & _ & Hma), Hsb as (_ & _ & Hmb).
    rewrite Hma in Hmb. injection Hmb as <-. apply Hab.
    destruct a, b. simpl in *. congruence. }
  pose proof (lookup_lt_Some _ _ _ Hda) as Hpa.
  pose proof (lookup_lt_Some _ _ _ Hdb) as Hpb.
  destruct (Remove_slot_ok _ _ _ _ Hwf Hsa Hva Hpa)
    as (item & last & m2 & Hitem & Hlast & Hm2 & Hrm).
  rewrite Hda in Hitem. injection Hitem as <-.
  eexists. split; [done|].
  assert (wf (removed s pa last ma m2)) as Hwf'.
  { destruct Hsa as (_ & _ & Hma). by apply wf_removed. }
  set (p2 := (length (data s) - 1)%nat) in *.
  destruct Hsb as (_ & _ & Hmb).
  destruct (decide (pb = p2)) as [->|Hne].
  - rewrite Hmb in Hm2. injection Hm2 as <-.
    rewrite Hdb in Hlast. injection Hlast as <-.
    apply (Get_ok _ _ pa mb); [|done|].
    + apply slot_of_meta; [done | | done]. unfold removed. cbn [meta]. fold p2.
      rewrite list_lookup_insert_ne by done.
      apply list_lookup_insert_eq. apply lookup_lt_Some in Hmb.
      pose proof (wf_len_data _ Hwf). lia.
    + unfold removed. cbn [data]. fold p2.
      rewrite lookup_take_lt by lia. by apply list_lookup_insert_eq.
  - apply (Get_ok _ _ pb mb); [|done|].
    + apply slot_of_meta; [done | | done]. unfold removed. cbn [meta]. fold p2.
      by rewrite !list_lookup_insert_ne.
    + unfold removed. cbn [data]. fold p2.
      rewrite lookup_take_lt by lia. by rewrite list_lookup_insert_ne.
Qed.

(** ** Generations only grow *)

Lemma gens_below_max_lookup s q m :
  gens_below_max s = true -> meta s !! q = Some m -> vid m < int_max.
Proof.
  unfold gens_below_max. rewrite forallb_forall. intros Hall Hm.
  apply Z.ltb_lt, Hall, list_elem_of_In, list_elem_of_lookup. by exists q.
Qed.

Lemma cur_gen_meta s q m :
  wf s -> meta s !! q = Some m -> cur_gen s (rid m) = Some (vid m).
Proof.
  intros Hwf Hm. destruct (wf_meta _ Hwf _ _ Hm) as [H0 Hi].
  unfold cur_gen.
  assert (at_index (indices s) (rid m) = Some (Z.of_nat q)) as ->
    by (by apply at_index_Some).
  by rewrite at_index_nat, Hm.
Qed.

Lemma cur_gen_inv s r g :
  wf s -> cur_gen s r = Some g ->
  exists q m, meta s !! q = Some m /\ rid m = r /\ vid m = g.
Proof.
  intros Hwf. unfold cur_gen.
  destruct (at_index (indices s) r) as [i|] eqn:Hi; [|done].
  destruct (at_index (meta s) i) as [m|] eqn:Hm; [|done].
  intros [= <-]. apply at_index_Some in Hi as [Hr Hi], Hm as [Hi0 Hm].
  exists (Z.to_nat i), m. split; [done|]. split; [|done].
  destruct (wf_idx _ Hwf _ _ Hi) as [_ (m' & Hm' & Hrm)].
  rewrite Hm in Hm'. injection Hm' as <-. lia.
Qed.

Lemma cur_gen_trans s s' r g :
  wf s -> gens_below_max s = true -> trans s s' ->
  cur_gen s r = Some g ->
  exists g', cur_gen s' r = Some g' /\ g <= g'.
Proof.
  intros Hwf Hmax Htr Hg.
  pose proof (wf_trans _ _ Hwf Htr) as Hwf'.
  destruct (cur_gen_inv _ _ _ Hwf Hg) as (q & m & Hm & <- & <-).
  pose proof (lookup_lt_Some _ _ _ Hm) as Hq.
  assert (exists q' m', meta s' !! q' = Some m' /\ rid m' = rid m /\
                        vid m <= vid m') as (q' & m' & Hm' & Hr' & Hle).
  { destruct Htr as [| p v | v m0 Hm0 | v Hle | p last m1 m2 Hp Hm1 Hm2].
    - by exists q, m.
    - by exists q, m.
    - unfold reused. cbn [meta].
      destruct (decide (q = length (data s))) as [->|Hne].
      + rewrite Hm in Hm0. injection Hm0 as <-.
        exists (length (data s)), (bump m).
        rewrite list_lookup_insert_eq by done. split; [done|].
        split; [done|]. simpl.
        pose proof (gens_below_max_lookup _ _ _ Hmax Hm).
        destruct (wf_gen _ Hwf _ _ Hm) as [Hrange _].
        rewrite incr_small by lia. lia.
      + exists q, m. by rewrite list_lookup_insert_ne.
    - exists q, m. unfold extended. cbn [meta].
      split; [by apply lookup_app_l_Some | done].
    - unfold removed. cbn [meta]. set (p2 := (length (data s) - 1)%nat) in *.
      pose proof (lookup_lt_Some _ _ _ Hm2) as Hp2.
      destruct (decide (q = p)) as [->|Hne].
      + rewrite Hm in Hm1. injection Hm1 as <-.
        exists p2, (bump m).
        rewrite list_lookup_insert_eq by (by rewrite length_insert).
        split; [done|]. split; [done|]. simpl.
        pose proof (gens_below_max_lookup _ _ _ Hmax Hm).
        destruct (wf_gen _ Hwf _ _ Hm) as [Hrange _].
        rewrite incr_small by lia. lia.
      + destruct (decide (q = p2)) as [->|Hne2].
        * rewrite Hm in Hm2. injection Hm2 as <-.
          exists p, m. rewrite list_lookup_insert_ne by done.
          rewrite list_lookup_insert_eq by lia. done.
        * exists q, m. by rewrite !list_lookup_insert_ne. }
  exists (vid m'). split; [|done]. rewrite <- Hr'. by apply (cur_gen_meta _ q').
Qed.

Lemma no_wrap_cons (o : op) (ops : list op) s :
  no_wrap (o :: ops) s =
    gens_below_max s &&
    match exec o s with
    | Some (_, s') => no_wrap ops s'
    | None => true
    end.
Proof. reflexivity. Qed.

Lemma cur_gen_run (ops : list op) s rs s' r g :
  wf s -> run ops s = Some (rs, s') -> no_wrap ops s = true ->
  cur_gen s r = Some g ->
  exists g', cur_gen s' r = Some g' /\ g <= g'.
Proof.
  revert s rs g. induction ops as [|o ops IH]; intros s rs g Hwf.
  - simpl. unfold ret. intros [= <- <-] _ Hg. exists g. split; [done | lia].
  - rewrite run_cons, no_wrap_cons.
    destruct (exec o s) as [[r0 s1]|] eqn:Hex; [|done].
    destruct (run ops s1) as [[rs1 s2]|] eqn:Hrun; [|done].
    intros [= <- <-] [Hmax Hnw]%andb_prop Hg.
    pose proof (exec_trans _ _ _ _ Hwf Hex) as Htr.
    destruct (cur_gen_trans _ _ _ _ Hwf Hmax Htr Hg) as (g1 & Hg1 & Hle1).
    destruct (IH s1 rs1 g1 (wf_trans _ _ Hwf Htr) Hrun Hnw Hg1) as (g2 & Hg2 & Hle2).
    exists g2. split; [done | lia].
Qed.

Lemma handle_eq h m : rid m = rid h -> vid m = vid h -> m = h.
Proof. destruct h, m. simpl. by intros -> ->. Qed.

Lemma Remove_gen s h x s' :
  wf s -> gens_below_max s = true ->
  Remove h s = Some ((x, None), s') ->
  cur_gen s' (rid h) = Some (vid h + 1).
Proof.
  intros Hwf Hmax Hrm.
  destruct (Remove_cases _ _ _ _ _ Hwf Hrm)
    as [(err & [=] & _) | (_ & p & last & m & m2 & Hs & Hv & Hp & _ & _ & Hm2 & ->)].
  pose proof (slot_of_rid _ _ _ _ Hwf Hs) as Hr.
  destruct Hs as (_ & _ & Hm).
  assert (wf (removed s p last m m2)) as Hwf' by (by apply wf_removed).
  pose proof (gens_below_max_lookup _ _ _ Hmax Hm).
  destruct (wf_gen _ Hwf _ _ Hm) as [Hrange _].
  rewrite <- Hr, <- Hv, <- (incr_small (vid m)) by lia.
  apply (cur_gen_meta _ (length (data s) - 1) (bump m) Hwf').
  unfold removed. cbn [meta]. apply list_lookup_insert_eq.
  rewrite length_insert. by eapply lookup_lt_Some.
Qed.

Lemma expired_of_gen s h g v :
  wf s -> cur_gen s (rid h) = Some g -> g <> vid h ->
  Get h s = Some ((zero, Some ErrExpired), s) /\
  Set_ h v s = Some ((zero, Some ErrExpired), s) /\
  Remove h s = Some ((zero, Some ErrExpired), s).
Proof.
  intros Hwf Hg Hne.
  destruct (cur_gen_inv _ _ _ Hwf Hg) as (q & m & Hm & Hr & <-).
  pose proof (slot_of_meta _ h _ _ Hwf Hm Hr) as Hs.
  rewrite (Get_slot _ _ _ _ Hs), (Set_slot _ _ _ _ _ Hs),
    (Remove_slot_expired _ _ _ _ Hs) by done.
  by destruct (Z.eqb_spec (vid m) (vid h)).
Qed.

(** C4: once [Remove(h)] has succeeded, [Get(h)], [Set(h, _)] and
    [Remove(h)] return [ErrExpired] after every further run of operations,
    as long as no generation counter wraps. *)
Theorem C4_expiry s h item s1 (ops : list op) rs s2 v :
  reachable s ->
  Remove h s = Some ((item, None), s1) ->
  run ops s1 = Some (rs, s2) ->
  no_wrap (ORemove h :: ops) s = true ->
  Get h s2 = Some ((zero, Some ErrExpired), s2) /\
  Set_ h v s2 = Some ((zero, Some ErrExpired), s2) /\
  Remove h s2 = Some ((zero, Some ErrExpired), s2).
Proof.
  intros Hwf%reachable_wf Hrm Hrun Hnw.
  rewrite no_wrap_cons in Hnw. apply andb_prop in Hnw as [Hmax Hnw].
  assert (exec (ORemove h) s = Some (RItem item None, s1)) as Hex
    by (unfold exec, bind, ret; by rewrite Hrm).
  rewrite Hex in Hnw.
  pose proof (wf_trans _ _ Hwf (exec_trans _ _ _ _ Hwf Hex)) as Hwf1.
  pose proof (Remove_gen _ _ _ _ Hwf Hmax Hrm) as Hg.
  destruct (cur_gen_run _ _ _ _ _ _ Hwf1 Hrun Hnw Hg) as (g' & Hg' & Hle).
  apply (expired_of_gen _ _ g'); [|done|lia].
  by eapply run_wf.
Qed.

(** ** The freed slots form a stack *)

Lemma freed_head s m F :
  freed_slots s = m :: F ->
  meta s !! length (data s) = Some m /\ drop (S (length (data s))) (meta s) = F.
Proof.
  unfold freed_slots. intros Hd.
  assert (meta s !! length (data s) = Some m) as Hm.
  { rewrite <- (Nat.add_0_r (length (data s))), <- lookup_drop. by rewrite Hd. }
  split; [done|]. rewrite (drop_S _ _ _ Hm) in Hd. by injection Hd.
Qed.

Lemma freed_removed s p last m m2 :
  wf s -> (p < length (data s))%nat ->
  freed_slots (removed s p last m m2) = bump m :: freed_slots s.
Proof.
  intros Hwf Hp. pose proof (wf_len_data _ Hwf) as Hld.
  unfold freed_slots, removed. cbn [data meta].
  set (p2 := (length (data s) - 1)%nat).
  rewrite length_take, length_insert.
  replace (p2 `min` length (data s))%nat with p2 by lia.
  rewrite (drop_S _ (bump m) p2).
  - f_equal. rewrite !drop_insert_lt by lia. f_equal. lia.
  - apply list_lookup_insert_eq. rewrite length_insert. lia.
Qed.

Lemma freed_Remove s h x s' :
  wf s -> Remove h s = Some ((x, None), s') ->
  freed_slots s' = bump h :: freed_slots s.
Proof.
  intros Hwf Hrm.
  destruct (Remove_cases _ _ _ _ _ Hwf Hrm)
    as [(err & [=] & _) | (_ & p & last & m & m2 & Hs & Hv & Hp & _ & _ & Hm2 & ->)].
  rewrite <- (handle_eq h m (slot_of_rid _ _ _ _ Hwf Hs) Hv).
  by apply freed_removed.
Qed.

Lemma freed_Put s v m F :
  freed_slots s = m :: F ->
  exists s', Put v s = Some (bump m, s') /\ trans s s' /\ freed_slots s' = F.
Proof.
  intros [Hm HF]%freed_head. exists (reused s v m).
  split; [by apply Put_reuse|]. split; [by apply trans_reuse|].
  unfold freed_slots, reused. cbn [data meta].
  rewrite length_app. simpl. rewrite drop_insert_lt by lia.
  by replace (length (data s) + 1)%nat with (S (length (data s))) by lia.
Qed.

Lemma freed_run_removes (hs : list Handle) s rs s1 :
  wf s -> run (map ORemove hs) s = Some (rs, s1) -> all_ok rs ->
  freed_slots s1 = map bump (rev hs) ++ freed_slots s.
Proof.
  revert s rs. induction hs as [|h hs IH]; intros s rs Hwf.
  - simpl. unfold ret. by intros [= <- <-] _.
  - rewrite map_cons, run_cons.
    destruct (exec (ORemove h) s) as [[r s']|] eqn:Hex; [|done].
    destruct (run (map ORemove hs) s') as [[rs' s2]|] eqn:Hrun; [|done].
    intros [= <- <-] [Hr Hok]%Forall_cons.
    pose proof (wf_trans _ _ Hwf (exec_trans _ _ _ _ Hwf Hex)) as Hwf'.
    rewrite (IH _ _ Hwf' Hrun Hok).
    unfold exec, bind, ret in Hex.
    destruct (Remove h s) as [[[x e] s0]|] eqn:Hrm; [|done].
    injection Hex as <- <-. destruct e as [e|]; [done|].
    rewrite (freed_Remove _ _ _ _ Hwf Hrm).
    simpl. rewrite map_app, <- app_assoc. done.
Qed.

Lemma run_puts (vs : list T) s :
  wf s -> (length vs <= length (freed_slots s))%nat ->
  exists rs s2,
    run (map OPut vs) s = Some (rs, s2) /\
    handles_of rs = map bump (take (length vs) (freed_slots s)).
Proof.
  revert s. induction vs as [|v vs IH]; intros s Hwf Hlen.
  - exists [], s. by simpl.
  - destruct (freed_slots s) as [|m F] eqn:HF; [simpl in Hlen; lia|].
    destruct (freed_Put s v m F HF) as (s' & Hput & Htr & HF').
    destruct (IH s' (wf_trans _ _ Hwf Htr)) as (rs & s2 & Hrun & Hh).
    { rewrite HF'. simpl in Hlen. lia. }
    exists (RHandle (bump m) :: rs), s2.
    rewrite map_cons, run_cons. unfold exec at 1, bind, ret.
    rewrite Hput, Hrun. split; [done|]. simpl. by rewrite Hh, HF'.
Qed.

(** ** Issued generations are ordered *)

Lemma Put_gen s v h' s' :
  wf s -> gens_below_max s = true -> Put v s = Some (h', s') ->
  cur_gen s' (rid h') = Some (vid h') /\
  (forall h g, cur_gen s (rid h) = Some g -> vid h <= g ->
     rid h' = rid h -> vid h < vid h').
Proof.
  intros Hwf Hmax Hput.
  destruct (Put_cases s v Hwf) as [(m & Hm & Hp) | [Hle Hp]];
    rewrite Hp in Hput; injection Hput as <- <-.
  - split.
    + apply (cur_gen_meta _ (length (data s)) (bump m)).
      * by apply wf_reused.
      * unfold reused. cbn [meta]. apply list_lookup_insert_eq.
        by eapply lookup_lt_Some.
    + intros h g Hg Hle Hr. simpl in Hr |- *.
      rewrite <- Hr, (cur_gen_meta _ _ _ Hwf Hm) in Hg. injection Hg as <-.
      pose proof (gens_below_max_lookup _ _ _ Hmax Hm).
      destruct (wf_gen _ Hwf _ _ Hm) as [Hrange _].
      rewrite incr_small by lia. lia.
  - split.
    + apply (cur_gen_meta _ (length (data s)) (mk_meta (len (data s)) 0)).
      * by apply wf_extended.
      * unfold extended. cbn [meta]. apply list_lookup_middle.
        pose proof (wf_len_data _ Hwf). lia.
    + intros h g Hg _ Hr. simpl in Hr. exfalso.
      destruct (cur_gen_inv _ _ _ Hwf Hg) as (q & m & Hm & Hrm & _).
      destruct (wf_meta _ Hwf _ _ Hm) as [H0 Hi].
      apply lookup_lt_Some in Hi. pose proof (wf_len_idx _ Hwf).
      unfold len in Hr. lia.
Qed.

Lemma exec_handle (o : op) s h' s' :
  exec o s = Some (RHandle h', s') -> exists v, Put v s = Some (h', s').
Proof.
  destruct o as [v | h | h v | h | | | | y | y]; unfold exec, bind, ret.
  - destruct (Put v s) as [[h0 s0]|] eqn:Hput; [|done].
    intros [= <- <-]. by exists v.
  - by destruct (Get h s) as [[[] ?]|].
  - by destruct (Set_ h v s) as [[[] ?]|].
  - by destruct (Remove h s) as [[[] ?]|].
  - by destruct (Pop s) as [[]|].
  - by destruct (Len s) as [[]|].
  - by destruct (Cap s) as [[]|].
  - by destruct (Iter y s) as [[]|].
  - by destruct (Iter2 y s) as [[]|].
Qed.

Lemma issued_ordered (ops : list op) s rs s' (L : list Handle) :
  wf s ->
  Forall (fun h => exists g, cur_gen s (rid h) = Some g /\ vid h <= g) L ->
  run ops s = Some (rs, s') -> no_wrap ops s = true ->
  Forall (fun h' => Forall (fun h => rid h' = rid h -> vid h < vid h') L)
         (handles_of rs) /\
  gen_ordered (handles_of rs).
Proof.
  revert s rs L. induction ops as [|o ops IH]; intros s rs L Hwf HL.
  - simpl. unfold ret. intros [= <- <-] _. by simpl.
  - rewrite run_cons, no_wrap_cons.
    destruct (exec o s) as [[r s1]|] eqn:Hex; [|done].
    destruct (run ops s1) as [[rs1 s2]|] eqn:Hrun; [|done].
    intros [= <- <-] [Hmax Hnw]%andb_prop.
    pose proof (exec_trans _ _ _ _ Hwf Hex) as Htr.
    pose proof (wf_trans _ _ Hwf Htr) as Hwf1.
    assert (Forall (fun h => exists g, cur_gen s1 (rid h) = Some g /\ vid h <= g) L)
      as HL1.
    { eapply Forall_impl; [apply HL|]. intros h (g & Hg & Hle).
      destruct (cur_gen_trans _ _ _ _ Hwf Hmax Htr Hg) as (g' & Hg' & Hle').
      exists g'. split; [done | lia]. }
    destruct r as [h' | | | | |];
      try (simpl; by apply (IH s1 rs1 L Hwf1 HL1 Hrun Hnw)).
    destruct (exec_handle _ _ _ _ Hex) as [v Hput].
    destruct (Put_gen _ _ _ _ Hwf Hmax Hput) as [Hcur Hnew].
    destruct (IH s1 rs1 (h' :: L) Hwf1) as [Hall Hord]; [|done|done|].
    { apply Forall_cons. split; [|done]. exists (vid h'). split; [done | lia]. }
    simpl. split; [|split; [|done]].
    + apply Forall_cons. split.
      * eapply Forall_impl; [apply HL|]. intros h (g & Hg & Hle) Hr.
        by apply (Hnew h g).
      * eapply Forall_impl; [apply Hall|]. intros h''. simpl.
        by intros [_ Hrest]%Forall_cons.
    + eapply Forall_impl; [apply Hall|]. intros h''. simpl.
      by intros [Hhd _]%Forall_cons.
Qed.

(** C6: after a run from a new container, removing the items of handles
    [hs] and then inserting up to as many items reuses the freed slots
    last-freed-first: the k-th insertion returns the reference id of the
    k-th most recent removal, its generation incremented twice; and, as
    long as no generation counter wraps, every handle issued in the whole
    run, the reused ones among them, has a strictly greater generation
    than each handle issued before it for the same reference id. *)
Theorem C6_reuse_stacking (c : nat) (ops : list op) rs0 s
    (hs : list Handle) rs1 s1 (vs : list T) :
  run ops (new_container c) = Some (rs0, s) ->
  run (map ORemove hs) s = Some (rs1, s1) -> all_ok rs1 ->
  (length vs <= length hs)%nat ->
  exists rs2 s2,
    run (map OPut vs) s1 = Some (rs2, s2) /\
    handles_of rs2 =
      map (fun h => bump (bump h)) (take (length vs) (rev hs)) /\
    (no_wrap (ops ++ map ORemove hs ++ map OPut vs) (new_container c) = true ->
     gen_ordered (handles_of (rs0 ++ rs1 ++ rs2))).
Proof.
  intros Hrun0 Hrun1 Hok Hlen.
  pose proof (run_wf _ _ _ _ (wf_new c) Hrun0) as Hwf.
  pose proof (run_wf _ _ _ _ Hwf Hrun1) as Hwf1.
  pose proof (freed_run_removes _ _ _ _ Hwf Hrun1 Hok) as HF.
  destruct (run_puts vs s1 Hwf1) as (rs2 & s2 & Hrun2 & Hh).
  { rewrite HF, length_app, length_map, length_rev. lia. }
  exists rs2, s2. split; [done|]. split.
  - rewrite Hh, HF, take_app_le by (rewrite length_map, length_rev; lia).
    rewrite firstn_map, map_map. done.
  - intros Hnw.
    eapply (issued_ordered _ _ _ s2 []); [apply wf_new | done | | done].
    rewrite run_app, Hrun0. cbn beta iota.
    by rewrite run_app, Hrun1, Hrun2.
Qed.

End Proofs.

(** ** The test of the package and concrete instances *)

(** C9 (amended): the scenario of the test holds with the handle returned
    for 40 carrying a generation two greater than that of the handle of
    the removed 20. *)
Theorem C9_scenario : scenario 2.
Proof.
  unfold scenario.
  do 4 eexists. do 6 eexists.
  do 11 (split; [vm_compute; reflexivity|]).
  vm_compute; reflexivity.
Qed.

(** C9, as claimed: the generation of the handle returned for 40 is not
    one greater than that of the handle of the removed 20. *)
Lemma C9_counterexample : ~ scenario 1.
Proof.
  intros (h1 & h2 & h3 & h4 & s1 & s2 & s3 & s4 & s5 & s6 &
          H1 & H2 & H3 & _ & H4 & _ & H5 & Hk & _).
  vm_compute in H1. injection H1 as <- <-.
  vm_compute in H2. injection H2 as <- <-.
  vm_compute in H3. injection H3 as <- <-.
  vm_compute in H4. injection H4 as <-.
  vm_compute in H5. injection H5 as <- <-.
  vm_compute in Hk. discriminate Hk.
Qed.

Lemma reachable_test_state : reachable test_state.
Proof. exists 0%nat, test_ops. eexists. vm_compute. reflexivity. Defined.

Lemma reachable_vacated_state : reachable vacated_state.
Proof.
  exists 0%nat, [OPut 10; ORemove (mk_meta 0 0)]. eexists.
  vm_compute. reflexivity.
Defined.

Lemma reachable_single_state : reachable single_state.
Proof. exists 0%nat, [OPut 10]. eexists. vm_compute. reflexivity. Defined.

(** C1, as claimed: after the only item is removed, the forged handle
    [(0, 1)] is in bounds and matches the stored generation, yet [Get],
    [Set] and [Remove] do not succeed on it: they index [data] out of
    range. *)
Lemma C1_counterexample :
  ~ (forall (s : SIV Z) (h : Handle) (v : Z),
       reachable s -> ~ out_of_bounds s h -> ~ stale s h ->
       (exists x s', Get h s = Some ((x, None), s')) /\
       (exists x s', Set_ h v s = Some ((x, None), s')) /\
       (exists x s', Remove h s = Some ((x, None), s'))).
Proof.
  intros Hclaim.
  destruct (Hclaim vacated_state (mk_meta 0 1) 7 reachable_vacated_state)
    as [(x & s' & Hget) _].
  - unfold out_of_bounds, len. simpl. lia.
  - intros (i & m & Hi & Hm & Hne). vm_compute in Hi. injection Hi as <-.
    vm_compute in Hm. injection Hm as <-. by apply Hne.
  - vm_compute in Hget. discriminate Hget.
Qed.

Lemma C1_witness :
  reachable test_state /\
  validated test_state (mk_meta 2 0) (Get (mk_meta 2 0)) /\
  validated test_state (mk_meta 2 0) (Set_ (mk_meta 2 0) 5) /\
  validated test_state (mk_meta 2 0) (Remove (mk_meta 2 0)) /\
  (forall i, resolves test_state (mk_meta 2 0) i ->
     Z.even (vid (mk_meta 2 0)) = true ->
     exists item, at_index (data test_state) i = Some item).
Proof.
  split; [exact reachable_test_state|].
  apply (C1_handle_validation test_state (mk_meta 2 0) 5).
  exact reachable_test_state.
Defined.

Lemma C2_witness :
  reachable test_state /\
  (forall p, (p < length (data test_state))%nat ->
     exists m, at_index (meta test_state) (Z.of_nat p) = Some m /\
               at_index (indices test_state) (rid m) = Some (Z.of_nat p)) /\
  len (data test_state) <= len (indices test_state) /\
  len (indices test_state) - len (data test_state) =
    len (freed_slots test_state).
Proof.
  split; [exact reachable_test_state|].
  apply (C2_indirection_invariant test_state). exact reachable_test_state.
Defined.

(** C3, as claimed: after the only item is removed the item sequence is
    empty while its metadata slot remains. *)
Lemma C3_counterexample :
  ~ (forall s : SIV Z, reachable s -> len (data s) = len (meta s)).
Proof.
  intros Hclaim. specialize (Hclaim vacated_state reachable_vacated_state).
  vm_compute in Hclaim. discriminate Hclaim.
Qed.

Lemma C3_witness :
  reachable vacated_state /\
  len (data vacated_state) <= len (meta vacated_state) /\
  len (meta vacated_state) = len (indices vacated_state) /\
  len (meta vacated_state) =
    len (data vacated_state) + len (freed_slots vacated_state).
Proof.
  split; [exact reachable_vacated_state|].
  apply (C3_lengths vacated_state). exact reachable_vacated_state.
Defined.

Lemma C4_witness :
  reachable single_state /\
  Get (mk_meta 0 0) (mkSIV [20] 1 [0] [mk_meta 0 2]) =
    Some ((zero, Some ErrExpired), mkSIV [20] 1 [0] [mk_meta 0 2]) /\
  Set_ (mk_meta 0 0) 5 (mkSIV [20] 1 [0] [mk_meta 0 2]) =
    Some ((zero, Some ErrExpired), mkSIV [20] 1 [0] [mk_meta 0 2]) /\
  Remove (mk_meta 0 0) (mkSIV [20] 1 [0] [mk_meta 0 2]) =
    Some ((zero, Some ErrExpired), mkSIV [20] 1 [0] [mk_meta 0 2]).
Proof.
  split; [exact reachable_single_state|].
  apply (C4_expiry single_state (mk_meta 0 0) 10 vacated_state [OPut 20]
           [RHandle (mk_meta 0 2)] (mkSIV [20] 1 [0] [mk_meta 0 2]) 5).
  - exact reachable_single_state.
  - vm_compute. reflexivity.
  - vm_compute. reflexivity.
  - vm_compute. reflexivity.
Defined.

Lemma C5_witness :
  reachable test_state /\
  exists s', Remove (mk_meta 1 2) test_state = Some ((40, None), s') /\
             Get (mk_meta 2 0) s' = Some ((30, None), s').
Proof.
  split; [exact reachable_test_state|].
  apply (C5_remove_frame test_state (mk_meta 1 2) (mk_meta 2 0) 40 30).
  - exact reachable_test_state.
  - discriminate.
  - vm_compute. reflexivity.
  - vm_compute. reflexivity.
Defined.

Lemma C6_witness :
  exists rs2 s2,
    run (map OPut [40; 50])
        (mkSIV [30] 4 [1; 2; 0] [mk_meta 2 0; mk_meta 0 1; mk_meta 1 1]) =
      Some (rs2, s2) /\
    handles_of rs2 = [mk_meta 0 2; mk_meta 1 2] /\
    gen_ordered
      (handles_of
         ([RHandle (mk_meta 0 0); RHandle (mk_meta 1 0); RHandle (mk_meta 2 0)]
          ++ [RItem 20 None; RItem 10 None] ++ rs2)).
Proof.
  destruct (C6_reuse_stacking 0%nat [OPut 10; OPut 20; OPut 30]
           [RHandle (mk_meta 0 0); RHandle (mk_meta 1 0); RHandle (mk_meta 2 0)]
           (mkSIV [10; 20; 30] 4 [0; 1; 2] [mk_meta 0 0; mk_meta 1 0; mk_meta 2 0])
           [mk_meta 1 0; mk_meta 0 0]
           [RItem 20 None; RItem 10 None]
           (mkSIV [30] 4 [1; 2; 0] [mk_meta 2 0; mk_meta 0 1; mk_meta 1 1])
           [40; 50]) as (rs2 & s2 & Hrun & Hhs & Hord).
  - vm_compute. reflexivity.
  - vm_compute. reflexivity.
  - repeat constructor.
  - simpl. lia.
  - exists rs2, s2. split; [exact Hrun|]. split; [exact Hhs|].
    apply Hord. vm_compute. reflexivity.
Defined.

Lemma C7_witness :
  reachable test_state /\
  (forall h x, Get h test_state = Some ((x, None), test_state) ->
     exists s', Set_ h 5 test_state = Some ((x, None), s') /\
                Get h s' = Some ((5, None), s')) /\
  (exists h s', Put 5 test_state = Some (h, s') /\
                Get h s' = Some ((5, None), s')).
Proof.
  split; [exact reachable_test_state|].
  apply (C7_round_trip test_state 5). exact reachable_test_state.
Defined.

Lemma C8_witness :
  reachable test_state /\
  (data test_state = [] -> Pop test_state = None) /\
  (data test_state <> [] ->
     exists h item s',
       at_index (meta test_state) (len (data test_state) - 1) = Some h /\
       Remove h test_state = Some ((item, None), s') /\
       Pop test_state = Some (item, s') /\
       last (data test_state) = Some item).
Proof.
  split; [exact reachable_test_state|].
  apply (C8_pop test_state). exact reachable_test_state.
Defined.

Lemma C10_witness :
  reachable test_state /\
  (forall h id s', Z.even (vid h) = true ->
     findID h test_state = Some ((id, None), s') ->
     0 <= id < len (data test_state)).
Proof.
  split; [exact reachable_test_state|].
  apply (C10_generation_parity test_state). exact reachable_test_state.
Defined.

(** ** Len, Cap and the growth of the tables *)

Section Reporters.

Context {T : Type} {E : GoEnv T}.

#[local] Abbreviation SIV := (SIV T).

Implicit Types (s : SIV) (h : Handle) (m : metadata) (p : nat) (v : T).

Lemma exec_len_delta (o : op) s r s' :
  wf s -> exec o s = Some (r, s') ->
  len (data s') = len (data s) + len_delta o r.
Proof.
  intros Hwf. destruct o as [v | h | h v | h | | | | y | y]; unfold exec; mred.
  - destruct (Put_cases s v Hwf) as [(m & Hm & ->) | [Hle ->]];
      intros [= <- <-]; unfold reused, extended; cbn [data];
      by rewrite len_app.
  - destruct (decide (0 <= rid h < len (indices s))) as [Hin|Hout].
    + destruct (slot_of_exists _ _ Hwf Hin) as (p & m & Hs).
      rewrite (Get_slot _ _ _ _ Hs).
      destruct (vid m =? vid h); [destruct (data s !! p)|];
        intros [= <- <-]; simpl; lia.
    + rewrite Get_out by lia. intros [= <- <-]. simpl. lia.
  - destruct (decide (0 <= rid h < len (indices s))) as [Hin|Hout].
    + destruct (slot_of_exists _ _ Hwf Hin) as (p & m & Hs).
      rewrite (Set_slot _ _ _ _ _ Hs).
      destruct (vid m =? vid h); [destruct (data s !! p)|];
        intros [= <- <-]; unfold len; cbn [data];
        rewrite ?length_insert; simpl; lia.
    + rewrite Set_out by lia. intros [= <- <-]. simpl. lia.
  - destruct (Remove h s) as [[[x e] s1]|] eqn:Hrm; [|done].
    intros [= <- <-].
    destruct (Remove_cases _ _ _ _ _ Hwf Hrm)
      as [(err & -> & _ & ->) | (-> & p & last & m & m2 & _ & _ & Hp & _ & _ & _ & ->)].
    + simpl. lia.
    + unfold removed, len. cbn [data].
      rewrite length_take, length_insert. simpl. lia.
  - destruct (decide (data s = [])) as [Hd|Hd].
    + by rewrite Pop_empty.
    + destruct (Pop_nonempty s Hwf Hd) as (m & item & Hm & Hitem & _ & ->).
      intros [= <- <-]. apply lookup_lt_Some in Hitem.
      unfold removed, len. cbn [data].
      rewrite length_take, length_insert. simpl. lia.
  - unfold Len. mred. intros [= <- <-]. simpl. lia.
  - unfold Cap. mred. intros [= <- <-]. simpl. lia.
  - unfold Iter. mred. intros [= <- <-]. simpl. lia.
  - unfold Iter2. mred.
    destruct (range_loop2 y (meta s) 0 (data s)); intros [= <- <-].
    simpl. lia.
Qed.

Lemma run_net_inserts (ops : list op) s rs s' :
  wf s -> run ops s = Some (rs, s') ->
  len (data s') = len (data s) + net_inserts ops rs.
Proof.
  revert s rs. induction ops as [|o ops IH]; intros s rs Hwf.
  - simpl. unfold ret. intros [= <- <-]. simpl. lia.
  - rewrite run_cons. destruct (exec o s) as [[r s1]|] eqn:Hex; [|done].
    destruct (run ops s1) as [[rs1 s2]|] eqn:Hrun; [|done].
    intros [= <- <-]. simpl.
    pose proof (wf_trans _ _ Hwf (exec_trans _ _ _ _ Hwf Hex)) as Hwf1.
    rewrite (IH _ _ Hwf1 Hrun), (exec_len_delta _ _ _ _ Hwf Hex). lia.
Qed.

(** After any run from a new container, [Len] reports the number of
    [Put]s minus the number of [Remove]s that returned no error and of
    [Pop]s. *)
Theorem Len_counts_live_items (c : nat) (ops : list op) rs s :
  run ops (new_container c) = Some (rs, s) ->
  Len s = Some (net_inserts ops rs, s).
Proof.
  intros Hrun. unfold Len. mred.
  by rewrite (run_net_inserts _ _ _ _ (wf_new c) Hrun).
Qed.

Lemma trans_dcap s s' :
  trans s s' ->
  dcap s' = dcap s \/
  ((dcap s <= length (data s))%nat /\
   length (data s') = S (length (data s)) /\
   dcap s' = growslice (dcap s) (S (length (data s)))).
Proof.
  intros [| p v | v m Hm | v Hle | p last m1 m2 Hp Hm1 Hm2];
    try (by left); unfold reused, extended, grown; cbn [data dcap];
    rewrite length_app; simpl;
    (destruct (Nat.ltb_spec (length (data s)) (dcap s)); [by left | right]);
    repeat split; lia.
Qed.

Lemma trans_len_data s s' :
  trans s s' -> (length (data s') <= S (length (data s)))%nat.
Proof.
  intros [| p v | v m Hm | v Hle | p last m1 m2 Hp Hm1 Hm2];
    unfold reused, extended, removed; cbn [data];
    rewrite ?length_insert, ?length_app, ?length_take, ?length_insert;
    simpl; lia.
Qed.

Lemma high_water_ge (ops : list op) s :
  (length (data s) <= high_water ops s)%nat.
Proof. destruct ops; simpl; lia. Qed.

Lemma run_dcap_stable (ops : list op) s rs s' :
  wf s -> run ops s = Some (rs, s') ->
  (high_water ops s <= dcap s)%nat -> dcap s' = dcap s.
Proof.
  revert s rs. induction ops as [|o ops IH]; intros s rs Hwf.
  - simpl. unfold ret. by intros [= <- <-].
  - rewrite run_cons. cbn [high_water].
    destruct (exec o s) as [[r s1]|] eqn:Hex; [|done].
    destruct (run ops s1) as [[rs1 s2]|] eqn:Hrun; [|done].
    intros [= <- <-] Hhw.
    pose proof (exec_trans _ _ _ _ Hwf Hex) as Htr.
    pose proof (high_water_ge ops s1) as Hge.
    destruct (trans_dcap _ _ Htr) as [Hsame | (Hfull & Hlen & _)]; [|lia].
    rewrite <- Hsame. apply (IH _ _ (wf_trans _ _ Hwf Htr) Hrun). lia.
Qed.

(** A container made with capacity [c] keeps reporting [Cap() = c],
    whatever the runtime's growth policy, as long as the run never holds
    more than [c] items at once. *)
Theorem Cap_stable_within_capacity (c : nat) (ops : list op) rs s :
  run ops (new_container c) = Some (rs, s) ->
  (high_water ops (new_container c) <= c)%nat ->
  Cap s = Some (Z.of_nat c, s).
Proof.
  intros Hrun Hhw. unfold Cap. mred.
  by rewrite (run_dcap_stable _ _ _ _ (wf_new c) Hrun Hhw).
Qed.

Lemma run_len_le_dcap (ops : list op) s rs s' :
  (forall c n : nat, (n <= growslice c n)%nat) ->
  wf s -> run ops s = Some (rs, s') ->
  (length (data s) <= dcap s)%nat -> (length (data s') <= dcap s')%nat.
Proof.
  intros Hgrow. revert s rs. induction ops as [|o ops IH]; intros s rs Hwf.
  - simpl. unfold ret. by intros [= <- <-].
  - rewrite run_cons.
    destruct (exec o s) as [[r s1]|] eqn:Hex; [|done].
    destruct (run ops s1) as [[rs1 s2]|] eqn:Hrun; [|done].
    intros [= <- <-] Hle.
    pose proof (exec_trans _ _ _ _ Hwf Hex) as Htr.
    apply (IH _ _ (wf_trans _ _ Hwf Htr) Hrun).
    destruct (trans_dcap _ _ Htr) as [Hsame | (Hfull & Hlen & Hcap)].
    + rewrite Hsame. pose proof (trans_len_data _ _ Htr).
      destruct Htr as [| p v | v m Hm | v Hl | p last m1 m2 Hp Hm1 Hm2];
        unfold reused, extended, removed, grown in *; cbn [data dcap] in *;
        rewrite ?length_insert, ?length_app, ?length_take, ?length_insert in *;
        simpl in *; try lia.
      * destruct (Nat.ltb_spec (length (data s)) (dcap s)); [lia|].
        pose proof (Hgrow (dcap s) (S (length (data s)))). lia.
      * destruct (Nat.ltb_spec (length (data s)) (dcap s)); [lia|].
        pose proof (Hgrow (dcap s) (S (length (data s)))). lia.
    + rewrite Hlen, Hcap. apply Hgrow.
Qed.

(** When the runtime's [append] always makes room for the length it
    needs, [Cap] is never below [Len] in a reachable state. *)
Theorem Cap_at_least_Len s :
  (forall c n : nat, (n <= growslice c n)%nat) ->
  reachable s ->
  exists n k, Len s = Some (n, s) /\ Cap s = Some (k, s) /\ n <= k.
Proof.
  intros Hgrow (c & ops & rs & Hrun).
  pose proof (run_len_le_dcap _ _ _ _ Hgrow (wf_new c) Hrun) as Hle.
  exists (len (data s)), (Z.of_nat (dcap s)). unfold Len, Cap, len. mred.
  repeat split. simpl in Hle. lia.
Qed.

Lemma run_high_water (ops : list op) s rs s' :
  wf s -> run ops s = Some (rs, s') ->
  length (indices s') = Nat.max (length (indices s)) (high_water ops s).
Proof.
  revert s rs. induction ops as [|o ops IH]; intros s rs Hwf.
  - simpl. unfold ret. intros [= <- <-].
    pose proof (wf_len_idx _ Hwf). pose proof (wf_len_data _ Hwf). lia.
  - rewrite run_cons. cbn [high_water].
    destruct (exec o s) as [[r s1]|] eqn:Hex; [|done].
    destruct (run ops s1) as [[rs1 s2]|] eqn:Hrun; [|done].
    intros [= <- <-].
    pose proof (exec_trans _ _ _ _ Hwf Hex) as Htr.
    rewrite (IH _ _ (wf_trans _ _ Hwf Htr) Hrun).
    pose proof (high_water_ge ops s1) as Hge.
    pose proof (wf_len_idx _ Hwf) as Hli. pose proof (wf_len_data _ Hwf) as Hld.
    assert (length (indices s1) =
            Nat.max (length (indices s)) (length (data s1))) as Hstep.
    { destruct Htr as [| p v | v m Hm | v Hl | p last m1 m2 Hp Hm1 Hm2];
        unfold reused, extended, removed; cbn [data indices];
        rewrite ?length_insert, ?length_app, ?length_take, ?length_insert;
        simpl; try lia.
      apply lookup_lt_Some in Hm. lia. }
    lia.
Qed.

(** The tables never outgrow the items: after any run from a new
    container, the number of reference ids allocated (the length of
    [indices], and of [meta]) is the largest number of items the run held
    at once. *)
Theorem ids_allocated_is_high_water (c : nat) (ops : list op) rs s :
  run ops (new_container c) = Some (rs, s) ->
  length (indices s) = high_water ops (new_container c) /\
  length (meta s) = high_water ops (new_container c).
Proof.
  intros Hrun.
  pose proof (run_high_water _ _ _ _ (wf_new c) Hrun) as Hhw.
  pose proof (wf_len_idx _ (run_wf _ _ _ _ (wf_new c) Hrun)) as Hli.
  simpl in Hhw. lia.
Qed.


End Reporters.

(** ** Iteration *)

Section Iteration.

Context {T : Type} {E : GoEnv T}.

#[local] Abbreviation SIV := (SIV T).

Implicit Types (s : SIV) (h : Handle) (m : metadata) (p : nat) (v : T).

Lemma range_loop_prefix {A : Type} (yield : A -> bool) (l : list A) :
  range_loop yield l `prefix_of` l.
Proof.
  induction l as [|x l IH]; simpl; [done|].
  destruct (yield x).
  - by apply prefix_cons.
  - exists l. done.
Qed.

Lemma range_loop_continued {A : Type} (yield : A -> bool) (l : list A)
    (i : nat) (x : A) :
  (S i < length (range_loop yield l))%nat ->
  range_loop yield l !! i = Some x -> yield x = true.
Proof.
  revert i. induction l as [|x0 l IH]; intros i; simpl; [lia|].
  destruct (yield x0) eqn:Hy; simpl.
  - destruct i as [|i]; simpl.
    + by intros _ [= <-].
    + intros Hlt. apply IH. lia.
  - lia.
Qed.

Lemma range_loop_stopped {A : Type} (yield : A -> bool) (l : list A) :
  (length (range_loop yield l) < length l)%nat ->
  exists x, last (range_loop yield l) = Some x /\ yield x = false.
Proof.
  induction l as [|x0 l IH]; simpl; [lia|].
  destruct (yield x0) eqn:Hy; simpl.
  - intros Hlt. destruct IH as (x & Hlast & Hx); [lia|].
    exists x. split; [|done].
    destruct (range_loop yield l) as [|y r]; [done|]. done.
  - intros _. by exists x0.
Qed.

Lemma range_loop_all {A : Type} (yield : A -> bool) (l : list A) :
  (forall x, x ∈ l -> yield x = true) -> range_loop yield l = l.
Proof.
  induction l as [|x0 l IH]; intros Hall; simpl; [done|].
  rewrite (Hall x0) by apply list_elem_of_here.
  f_equal. apply IH. intros x Hx. apply Hall. by apply list_elem_of_further.
Qed.

(** [Iter] leaves the container unchanged and hands to [yield] a prefix of
    the items in storage order: every item before the last one handed over
    was accepted, a pass cut short ends on the item [yield] refused, and a
    [yield] that accepts every item receives them all. *)
Theorem Iter_yields_prefix (yield : T -> bool) s :
  exists r,
    Iter yield s = Some (r, s) /\
    r `prefix_of` data s /\
    (forall i x, (S i < length r)%nat -> r !! i = Some x -> yield x = true) /\
    ((length r < length (data s))%nat ->
       exists x, last r = Some x /\ yield x = false) /\
    ((forall x, x ∈ data s -> yield x = true) -> r = data s).
Proof.
  exists (range_loop yield (data s)). split; [done|].
  split; [apply range_loop_prefix|].
  split; [apply range_loop_continued|].
  split; [apply range_loop_stopped | apply range_loop_all].
Qed.

Lemma range_loop2_spec (yield : Handle -> T -> bool) (ms : list metadata)
    (l : list T) (i : nat) :
  (i + length l <= length ms)%nat ->
  exists r,
    range_loop2 yield ms i l = Some r /\
    (length r <= length l)%nat /\
    (forall j h v, r !! j = Some (h, v) ->
       ms !! (i + j)%nat = Some h /\ l !! j = Some v) /\
    (forall j h v, (S j < length r)%nat -> r !! j = Some (h, v) ->
       yield h v = true) /\
    ((length r < length l)%nat ->
       exists h v, last r = Some (h, v) /\ yield h v = false).
Proof.
  revert i. induction l as [|v0 l IH]; intros i Hlen; simpl in *.
  - exists []. split; [done|]. split; [done|].
    split; [done|]. split; [done|]. simpl. lia.
  - rewrite at_index_nat.
    destruct (lookup_lt_is_Some_2 ms i) as [h0 Hh0]; [lia|]. rewrite Hh0.
    destruct (yield h0 v0) eqn:Hy.
    + destruct (IH (S i)) as (r & -> & Hle & Hpos & Hcont & Hstop); [lia|].
      exists ((h0, v0) :: r). split; [done|]. split; [simpl; lia|].
      split; [|split].
      * intros [|j] h v; simpl.
        -- intros [= <- <-]. by rewrite Nat.add_0_r.
        -- intros Hj. destruct (Hpos _ _ _ Hj) as [Hms Hl].
           split; [|done]. by replace (i + S j)%nat with (S i + j)%nat by lia.
      * intros [|j] h v; simpl.
        -- by intros _ [= <- <-].
        -- intros Hlt. apply Hcont. lia.
      * simpl. intros Hlt. destruct Hstop as (h & v & Hlast & Hyv); [lia|].
        exists h, v. split; [|done]. by destruct r.
    + exists [(h0, v0)]. split; [done|]. split; [simpl; lia|].
      split; [|split].
      * intros [|j] h v; simpl; [|done].
        intros [= <- <-]. by rewrite Nat.add_0_r.
      * simpl. intros j h v Hlt. lia.
      * intros _. by exists h0, v0.
Qed.

(** In a reachable state [Iter2] does not panic and leaves the container
    unchanged; the pairs it hands to [yield] are the leading items in
    storage order, at most [Len] of them, each with the handle stored for
    its position, and [Get] on that handle returns the paired item; a
    pass cut short ends on the pair [yield] refused. *)
Theorem Iter2_yields_valid_handles (yield : Handle -> T -> bool) s :
  reachable s ->
  exists r,
    Iter2 yield s = Some (r, s) /\
    (length r <= length (data s))%nat /\
    (forall j h v, r !! j = Some (h, v) ->
       meta s !! j = Some h /\ data s !! j = Some v /\
       Get h s = Some ((v, None), s)) /\
    (forall j h v, (S j < length r)%nat -> r !! j = Some (h, v) ->
       yield h v = true) /\
    ((length r < length (data s))%nat ->
       exists h v, last r = Some (h, v) /\ yield h v = false).
Proof.
  intros Hwf%reachable_wf. pose proof (wf_len_data _ Hwf) as Hld.
  destruct (range_loop2_spec yield (meta s) (data s) 0)
    as (r & Hr & Hle & Hpos & Hcont & Hstop); [simpl; lia|].
  exists r. unfold Iter2. mred. rewrite Hr.
  split; [done|]. split; [done|]. split; [|by split].
  intros j h v Hj. destruct (Hpos _ _ _ Hj) as [Hm Hd]. simpl in Hm.
  split; [done|]. split; [done|].
  apply (Get_ok _ _ j h); [|done|done].
  by apply slot_of_meta.
Qed.

(** In a reachable state the handles on which [Get] succeeds are exactly
    the metadata entries of the live positions, with the item stored
    there, and no two slots carry the same reference id: each item has one
    valid handle. *)
Theorem valid_handles_are_live_slots s h x :
  reachable s ->
  (Get h s = Some ((x, None), s) <->
   exists p, meta s !! p = Some h /\ data s !! p = Some x) /\
  (forall p q m m',
     meta s !! p = Some m -> meta s !! q = Some m' -> rid m = rid m' ->
     p = q).
Proof.
  intros Hwf%reachable_wf. split; [split|].
  - intros Hg.
    destruct (Get_ok_inv _ _ _ _ Hwf Hg) as (_ & p & m & Hs & Hv & Hd).
    exists p. split; [|done].
    rewrite <- (handle_eq h m (slot_of_rid _ _ _ _ Hwf Hs) Hv).
    by destruct Hs as (_ & _ & Hm).
  - intros (p & Hm & Hd). apply (Get_ok _ _ p h); [|done|done].
    by apply slot_of_meta.
  - intros p q m m' Hm Hm' Hr.
    destruct (wf_meta _ Hwf _ _ Hm) as [_ Hi].
    destruct (wf_meta _ Hwf _ _ Hm') as [_ Hi'].
    rewrite Hr, Hi' in Hi. injection Hi. lia.
Qed.

(** In a reachable state handle validation never panics and never changes
    the container, whatever the handle. *)
Theorem findID_total s h :
  reachable s ->
  exists id err, findID h s = Some ((id, err), s) /\
                 (err = None -> 0 <= id < len (meta s)).
Proof.
  intros Hwf%reachable_wf.
  destruct (decide (0 <= rid h < len (indices s))) as [Hin|Hout].
  - destruct (slot_of_exists _ _ Hwf Hin) as (p & m & Hs).
    rewrite (findID_slot _ _ _ _ Hs).
    destruct Hs as (_ & _ & Hm%lookup_lt_Some).
    destruct (vid m =? vid h); do 2 eexists; (split; [done|]);
      [intros _; unfold len; lia | done].
  - rewrite findID_out by lia. by do 2 eexists.
Qed.

End Iteration.

(** ** Frames and compositions *)

Section Frames.

Context {T : Type} {E : GoEnv T}.

#[local] Abbreviation SIV := (SIV T).

Implicit Types (s : SIV) (h : Handle) (m : metadata) (p : nat) (v : T).

Lemma live_positions_differ s a b pa ma pb mb :
  wf s -> a <> b ->
  slot_of s a pa ma -> vid ma = vid a ->
  slot_of s b pb mb -> vid mb = vid b ->
  pa <> pb.
Proof.
  intros Hwf Hab Hsa Hva Hsb Hvb ->.
  pose proof (slot_of_rid _ _ _ _ Hwf Hsa) as Hra.
  pose proof (slot_of_rid _ _ _ _ Hwf Hsb) as Hrb.
  destruct Hsa as (_ & _ & Hma), Hsb as (_ & _ & Hmb).
  rewrite Hma in Hmb. injection Hmb as <-. apply Hab.
  by rewrite <- (handle_eq a ma Hra Hva), <- (handle_eq b ma Hrb Hvb).
Qed.

(** For distinct handles [a] and [b] on which [Get] succeeds, [Set(a, v)]
    returns [a]'s previous item and leaves the item of [b], and the number
    of items, as they were. *)
Theorem Set_frame s a b va vb v :
  reachable s -> a <> b ->
  Get a s = Some ((va, None), s) ->
  Get b s = Some ((vb, None), s) ->
  exists s', Set_ a v s = Some ((va, None), s') /\
             Get b s' = Some ((vb, None), s') /\
             Len s' = Some (len (data s), s').
Proof.
  intros Hwf%reachable_wf Hab Hga Hgb.
  destruct (Get_ok_inv _ _ _ _ Hwf Hga) as (_ & pa & ma & Hsa & Hva & Hda).
  destruct (Get_ok_inv _ _ _ _ Hwf Hgb) as (_ & pb & mb & Hsb & Hvb & Hdb).
  pose proof (live_positions_differ _ _ _ _ _ _ _ Hwf Hab Hsa Hva Hsb Hvb) as Hpp.
  rewrite (Set_slot _ _ _ _ _ Hsa), Hva, Z.eqb_refl, Hda.
  eexists. split; [done|]. split.
  - apply (Get_ok _ _ pb mb); [done | done |]. cbn [data].
    by rewrite list_lookup_insert_ne.
  - unfold Len, len. mred. by rewrite length_insert.
Qed.

(** [Put] appends the item to the storage order and returns a handle
    different from every handle on which [Get] succeeded before, and
    [Get] on such a handle still returns the item it returned before. *)
Theorem Put_frame s b vb v :
  reachable s ->
  Get b s = Some ((vb, None), s) ->
  exists h s', Put v s = Some (h, s') /\
               data s' = data s ++ [v] /\
               rid h <> rid b /\
               Get b s' = Some ((vb, None), s').
Proof.
  intros Hwf%reachable_wf Hgb.
  destruct (Get_ok_inv _ _ _ _ Hwf Hgb) as (_ & pb & mb & Hsb & Hvb & Hdb).
  pose proof (slot_of_rid _ _ _ _ Hwf Hsb) as Hrb.
  pose proof (lookup_lt_Some _ _ _ Hdb) as Hpb.
  destruct Hsb as (Hb0 & Hib & Hmb).
  destruct (Put_cases s v Hwf) as [(m & Hm & Hput) | [Hle Hput]];
    rewrite Hput; do 2 eexists; (split; [done|]); (split; [done|]).
  - split.
    + simpl. intros Hr.
      destruct (wf_meta _ Hwf _ _ Hm) as [_ Hi].
      rewrite Hr, Hib in Hi. injection Hi. lia.
    + apply (Get_ok _ _ pb mb); [|done|].
      * apply slot_of_meta; [by apply wf_reused | | done].
        unfold reused. cbn [meta]. rewrite list_lookup_insert_ne by lia. done.
      * unfold reused. cbn [data]. by apply lookup_app_l_Some.
  - split.
    + simpl. apply lookup_lt_Some in Hib.
      pose proof (wf_len_idx _ Hwf). unfold len. lia.
    + apply (Get_ok _ _ pb mb); [|done|].
      * apply slot_of_meta; [by apply wf_extended | | done].
        unfold extended. cbn [meta]. by apply lookup_app_l_Some.
      * unfold extended. cbn [data]. by apply lookup_app_l_Some.
Qed.

Lemma incr_neq (x : Z) : incr x <> x.
Proof.
  intros Heq. pose proof (incr_even x) as He. rewrite Heq in He.
  by destruct (Z.even x).
Qed.


(** A handle is expired as soon as [Remove] on it has succeeded, also at
    the wrap of the generation counter: [Get], [Set] and [Remove] return
    [ErrExpired] in the state [Remove] leaves. *)
Theorem Remove_expires_at_once s h x s' v :
  reachable s ->
  Remove h s = Some ((x, None), s') ->
  Get h s' = Some ((zero, Some ErrExpired), s') /\
  Set_ h v s' = Some ((zero, Some ErrExpired), s') /\
  Remove h s' = Some ((zero, Some ErrExpired), s').
Proof.
  intros Hwf%reachable_wf Hrm.
  destruct (Remove_cases _ _ _ _ _ Hwf Hrm)
    as [(err & [=] & _) | (_ & p & last & m & m2 & Hs & Hv & Hp & _ & _ & Hm2 & ->)].
  pose proof (slot_of_rid _ _ _ _ Hwf Hs) as Hr.
  destruct Hs as (_ & _ & Hm).
  assert (wf (removed s p last m m2)) as Hwf' by (by apply wf_removed).
  apply (expired_of_gen _ _ (incr (vid h))); [done | | apply incr_neq].
  rewrite <- Hr, <- Hv.
  apply (cur_gen_meta _ (length (data s) - 1) (bump m) Hwf').
  unfold removed. cbn [meta]. apply list_lookup_insert_eq.
  rewrite length_insert. by eapply lookup_lt_Some.
Qed.

(** [Pop] right after [Put(v)] returns [v] and restores the items; the
    handle [Put] returned is then expired, and every handle on which
    [Get] succeeded before still returns its item. *)
Theorem Put_then_Pop s v :
  reachable s ->
  exists h s1 s2,
    Put v s = Some (h, s1) /\ Pop s1 = Some (v, s2) /\
    data s2 = data s /\
    Get h s2 = Some ((zero, Some ErrExpired), s2) /\
    (forall b x, Get b s = Some ((x, None), s) ->
                 Get b s2 = Some ((x, None), s2)).
Proof.
  intros Hwf%reachable_wf.
  assert (exists h s1, Put v s = Some (h, s1) /\ trans s s1 /\
            data s1 = data s ++ [v] /\
            meta s1 !! length (data s) = Some h /\
            (forall p m, (p < length (data s))%nat ->
               meta s !! p = Some m -> meta s1 !! p = Some m))
    as (h & s1 & Hput & Htr & Hd1 & Hh & Hold).
  { destruct (Put_cases s v Hwf) as [(m & Hm & Hput) | [Hle Hput]].
    - exists (bump m), (reused s v m). split; [done|].
      split; [by apply trans_reuse|]. split; [done|]. split.
      + unfold reused. cbn [meta]. apply list_lookup_insert_eq.
        by eapply lookup_lt_Some.
      + intros p m0 Hp Hm0. unfold reused. cbn [meta].
        by rewrite list_lookup_insert_ne by lia.
    - exists (mk_meta (len (data s)) 0), (extended s v). split; [done|].
      split; [by apply trans_extend|]. split; [done|]. split.
      + unfold extended. cbn [meta]. apply list_lookup_middle.
        pose proof (wf_len_data _ Hwf). unfold Handle. lia.
      + intros p m0 Hp Hm0. unfold extended. cbn [meta].
        by apply lookup_app_l_Some. }
  pose proof (wf_trans _ _ Hwf Htr) as Hwf1.
  assert (length (data s1) - 1 = length (data s))%nat as Hn
    by (rewrite Hd1, length_app; simpl; lia).
  destruct (Pop_nonempty s1 Hwf1) as (m & item & Hm & Hitem & Hrm & Hpop).
  { rewrite Hd1. by destruct (data s). }
  rewrite Hn in Hm, Hitem, Hrm, Hpop.
  unfold Handle in *. rewrite Hh in Hm. injection Hm as <-.
  rewrite Hd1, list_lookup_middle in Hitem by done. injection Hitem as <-.
  exists h, s1, (removed s1 (length (data s)) v h h).
  split; [done|]. split; [done|].
  assert (wf (removed s1 (length (data s)) v h h)) as Hwf2.
  { apply wf_removed; [done | | done | by rewrite Hn].
    rewrite Hd1, length_app. simpl. lia. }
  assert (data (removed s1 (length (data s)) v h h) = data s) as Hd2.
  { unfold removed. cbn [data]. rewrite Hn, Hd1.
    rewrite take_insert_ge by lia. by rewrite take_app_length. }
  split; [done|]. split.
  - assert (cur_gen (removed s1 (length (data s)) v h h) (rid h) =
            Some (incr (vid h))) as Hcur.
    { apply (cur_gen_meta _ (length (data s)) (bump h) Hwf2).
      unfold removed. cbn [meta]. rewrite Hn.
      apply list_lookup_insert_eq. rewrite length_insert.
      by eapply lookup_lt_Some. }
    by destruct (expired_of_gen _ h _ v Hwf2 Hcur (incr_neq _)) as [Hg _].
  - intros b x Hgb.
    destruct (Get_ok_inv _ _ _ _ Hwf Hgb) as (_ & pb & mb & Hsb & Hvb & Hdb).
    pose proof (slot_of_rid _ _ _ _ Hwf Hsb) as Hrb.
    pose proof (lookup_lt_Some _ _ _ Hdb) as Hpb.
    destruct Hsb as (_ & _ & Hmb).
    apply (Get_ok _ _ pb mb); [|done|by rewrite Hd2].
    apply slot_of_meta; [done | | done].
    unfold removed. cbn [meta]. rewrite Hn.
    rewrite !list_lookup_insert_ne by lia. by apply Hold.
Qed.

Lemma insert_cons_Permutation {A : Type} (l : list A) (i : nat) (x y : A) :
  l !! i = Some x -> x :: <[i := y]> l ≡ₚ y :: l.
Proof.
  revert i. induction l as [|a l IH]; intros [|i]; simpl; try done.
  - intros [= ->]. apply Permutation_swap.
  - intros Hi. etrans; [apply Permutation_swap|].
    etrans; [apply Permutation_skip, IH, Hi|]. apply Permutation_swap.
Qed.

(** A successful [Remove] takes out the one item it returns: the items
    before it are a permutation of the returned item and the items
    after, and [Len] drops by one. *)
Theorem Remove_takes_one_item s h x s' :
  reachable s ->
  Remove h s = Some ((x, None), s') ->
  data s ≡ₚ x :: data s' /\
  Len s' = Some (len (data s) - 1, s').
Proof.
  intros Hwf%reachable_wf Hrm.
  destruct (Remove_cases _ _ _ _ _ Hwf Hrm)
    as [(err & [=] & _) | (_ & p & last & m & m2 & Hs & Hv & Hp & Hx & Hlast & Hm2 & ->)].
  split.
  - unfold removed. cbn [data].
    set (n1 := (length (data s) - 1)%nat) in *.
    assert (data s = take n1 (data s) ++ [last]) as Hsplit.
    { rewrite <- (take_drop n1 (data s)) at 1. f_equal.
      rewrite (drop_S _ _ _ Hlast), drop_ge by lia. done. }
    destruct (decide (p = n1)) as [->|Hne].
    + rewrite take_insert_ge by lia. rewrite Hx in Hlast.
      injection Hlast as <-. rewrite Hsplit at 1.
      by rewrite Permutation_app_comm.
    + rewrite take_insert_lt by lia.
      rewrite insert_cons_Permutation by (rewrite lookup_take_lt by lia; done).
      rewrite Hsplit at 1. by rewrite Permutation_app_comm.
  - unfold Len, removed, len. mred. rewrite length_take, length_insert.
    do 2 f_equal. lia.
Qed.

(** [Pop] keeps the storage order: it returns the last item and leaves
    the items before it in place. *)
Theorem Pop_takes_last s x s' :
  reachable s ->
  Pop s = Some (x, s') ->
  data s = data s' ++ [x].
Proof.
  intros Hwf%reachable_wf Hpop.
  destruct (decide (data s = [])) as [Hd|Hd]; [by rewrite Pop_empty in Hpop|].
  destruct (Pop_nonempty s Hwf Hd) as (m & item & Hm & Hitem & _ & Hpop').
  rewrite Hpop' in Hpop. injection Hpop as <- <-.
  unfold removed. cbn [data]. rewrite take_insert_ge by lia.
  rewrite <- (take_drop (length (data s) - 1) (data s)) at 1. f_equal.
  rewrite (drop_S _ _ _ Hitem), drop_ge; [done|].
  apply lookup_lt_Some in Hitem. lia.
Qed.

End Frames.

(** ** Instances on the container of the test *)

Lemma Len_counts_live_items_witness :
  run test_ops (new_container 0) =
    Some ([RHandle (mk_meta 0 0); RHandle (mk_meta 1 0); RHandle (mk_meta 2 0);
           RItem 20 None; RHandle (mk_meta 1 2); RItem 30 None;
           RItem 10 None], test_state) /\
  Len test_state = Some (2, test_state).
Proof.
  split; [vm_compute; reflexivity|].
  apply (Len_counts_live_items 0%nat test_ops
           [RHandle (mk_meta 0 0); RHandle (mk_meta 1 0); RHandle (mk_meta 2 0);
            RItem 20 None; RHandle (mk_meta 1 2); RItem 30 None;
            RItem 10 None] test_state).
  vm_compute. reflexivity.
Defined.

Lemma Cap_stable_within_capacity_witness :
  (high_water test_ops (new_container 3) <= 3)%nat /\
  Cap (mkSIV [40; 30] 3 [2; 0; 1] [mk_meta 1 2; mk_meta 2 0; mk_meta 0 1]) =
    Some (3, mkSIV [40; 30] 3 [2; 0; 1] [mk_meta 1 2; mk_meta 2 0; mk_meta 0 1]).
Proof.
  split; [vm_compute; lia|].
  apply (Cap_stable_within_capacity 3%nat test_ops
           [RHandle (mk_meta 0 0); RHandle (mk_meta 1 0); RHandle (mk_meta 2 0);
            RItem 20 None; RHandle (mk_meta 1 2); RItem 30 None;
            RItem 10 None]).
  - vm_compute. reflexivity.
  - vm_compute. lia.
Defined.

Lemma Cap_at_least_Len_witness :
  (forall c n : nat, (n <= growslice (GoEnv:=int_env) c n)%nat) /\
  exists n k, Len test_state = Some (n, test_state) /\
              Cap test_state = Some (k, test_state) /\ n <= k.
Proof.
  assert (forall c n : nat, (n <= growslice (GoEnv:=int_env) c n)%nat) as Hgrow
    by (intros c n; simpl; lia).
  split; [exact Hgrow|].
  apply (Cap_at_least_Len test_state Hgrow). exact reachable_test_state.
Defined.

Lemma ids_allocated_is_high_water_witness :
  length (indices test_state) = high_water test_ops (new_container 0) /\
  length (meta test_state) = high_water test_ops (new_container 0).
Proof.
  apply (ids_allocated_is_high_water 0%nat test_ops
           [RHandle (mk_meta 0 0); RHandle (mk_meta 1 0); RHandle (mk_meta 2 0);
            RItem 20 None; RHandle (mk_meta 1 2); RItem 30 None;
            RItem 10 None] test_state).
  vm_compute. reflexivity.
Defined.

Lemma Iter2_yields_valid_handles_witness :
  reachable test_state /\
  exists r,
    Iter2 (fun _ _ => true) test_state = Some (r, test_state) /\
    (length r <= length (data test_state))%nat.
Proof.
  split; [exact reachable_test_state|].
  destruct (Iter2_yields_valid_handles (fun _ _ => true) test_state
              reachable_test_state) as (r & Hr & Hle & _).
  exists r. split; [exact Hr | exact Hle].
Defined.

Lemma valid_handles_are_live_slots_witness :
  reachable test_state /\
  (Get (mk_meta 2 0) test_state = Some ((30, None), test_state) <->
   exists p, meta test_state !! p = Some (mk_meta 2 0) /\
             data test_state !! p = Some 30).
Proof.
  split; [exact reachable_test_state|].
  apply (valid_handles_are_live_slots test_state (mk_meta 2 0) 30).
  exact reachable_test_state.
Defined.

Lemma findID_total_witness :
  reachable vacated_state /\
  exists id err,
    findID (mk_meta 0 1) vacated_state = Some ((id, err), vacated_state) /\
    (err = None -> 0 <= id < len (meta vacated_state)).
Proof.
  split; [exact reachable_vacated_state|].
  apply (findID_total vacated_state (mk_meta 0 1)).
  exact reachable_vacated_state.
Defined.

Lemma Set_frame_witness :
  reachable test_state /\
  exists s', Set_ (mk_meta 1 2) 5 test_state = Some ((40, None), s') /\
             Get (mk_meta 2 0) s' = Some ((30, None), s') /\
             Len s' = Some (len (data test_state), s').
Proof.
  split; [exact reachable_test_state|].
  apply (Set_frame test_state (mk_meta 1 2) (mk_meta 2 0) 40 30 5).
  - exact reachable_test_state.
  - discriminate.
  - vm_compute. reflexivity.
  - vm_compute. reflexivity.
Defined.

Lemma Put_frame_witness :
  reachable test_state /\
  exists h s', Put 5 test_state = Some (h, s') /\
               data s' = data test_state ++ [5] /\
               rid h <> rid (mk_meta 2 0) /\
               Get (mk_meta 2 0) s' = Some ((30, None), s').
Proof.
  split; [exact reachable_test_state|].
  apply (Put_frame test_state (mk_meta 2 0) 30 5).
  - exact reachable_test_state.
  - vm_compute. reflexivity.
Defined.


Lemma Remove_expires_at_once_witness :
  reachable single_state /\
  Get (mk_meta 0 0) vacated_state =
    Some ((zero, Some ErrExpired), vacated_state) /\
  Set_ (mk_meta 0 0) 5 vacated_state =
    Some ((zero, Some ErrExpired), vacated_state) /\
  Remove (mk_meta 0 0) vacated_state =
    Some ((zero, Some ErrExpired), vacated_state).
Proof.
  split; [exact reachable_single_state|].
  apply (Remove_expires_at_once single_state (mk_meta 0 0) 10 vacated_state 5).
  - exact reachable_single_state.
  - vm_compute. reflexivity.
Defined.

Lemma Put_then_Pop_witness :
  reachable test_state /\
  exists h s1 s2,
    Put 5 test_state = Some (h, s1) /\ Pop s1 = Some (5, s2) /\
    data s2 = data test_state.
Proof.
  split; [exact reachable_test_state|].
  destruct (Put_then_Pop test_state 5 reachable_test_state)
    as (h & s1 & s2 & Hput & Hpop & Hd & _).
  exists h, s1, s2. split; [exact Hput|]. split; [exact Hpop | exact Hd].
Defined.

Lemma Remove_takes_one_item_witness :
  reachable single_state /\
  data single_state ≡ₚ 10 :: data vacated_state /\
  Len vacated_state = Some (len (data single_state) - 1, vacated_state).
Proof.
  split; [exact reachable_single_state|].
  apply (Remove_takes_one_item single_state (mk_meta 0 0) 10 vacated_state).
  - exact reachable_single_state.
  - vm_compute. reflexivity.
Defined.

Lemma Pop_takes_last_witness :
  reachable test_state /\
  data test_state =
    data (mkSIV [40] 4 [2; 0; 1] [mk_meta 1 2; mk_meta 2 1; mk_meta 0 1])
    ++ [30].
Proof.
  split; [exact reachable_test_state|].
  apply (Pop_takes_last test_state 30
           (mkSIV [40] 4 [2; 0; 1] [mk_meta 1 2; mk_meta 2 1; mk_meta 0 1])).
  - exact reachable_test_state.
  - vm_compute. reflexivity.
Defined.

(** ** Where the operations panic *)

Section Panics.

Context {T : Type} {E : GoEnv T}.

#[local] Abbreviation SIV := (SIV T).

Implicit Types (s : SIV) (h : Handle) (m : metadata) (p : nat) (v : T).

Lemma handle_op_panics s h (f : M T (T * option error)) :
  wf s -> validated s h f -> f s = None ->
  exists i, resolves s h i /\ Z.even (vid h) = false.
Proof.
  intros Hwf (Hinv & Hexp & _ & Hok) Hnone.
  destruct (decide (0 <= rid h < len (indices s))) as [Hin|Hout].
  - destruct (slot_of_exists _ _ Hwf Hin) as (p & m & Hs).
    destruct (slot_of_at_index _ _ _ _ Hs) as [Hai Ham].
    destruct (decide (vid m = vid h)) as [Hv|Hv].
    + exists (Z.of_nat p). split; [split; [done | by exists m]|].
      destruct (Z.even (vid h)) eqn:Hev; [|done]. exfalso.
      pose proof (proj1 (slot_of_even _ _ _ _ Hwf Hs Hv) Hev) as Hp.
      destruct (lookup_lt_is_Some_2 (data s) p Hp) as [item Hitem].
      destruct (proj2 (Hok item)) as [s' Hs'].
      * exists (Z.of_nat p). rewrite at_index_nat.
        repeat split; try done. by exists m.
      * by rewrite Hnone in Hs'.
    + destruct (proj2 Hexp) as (x & s' & Hs'); [by exists (Z.of_nat p), m|].
      by rewrite Hnone in Hs'.
  - destruct (proj2 Hinv) as (x & s' & Hs'); [unfold out_of_bounds; lia|].
    by rewrite Hnone in Hs'.
Qed.

(** In a reachable state an operation panics in two cases only: [Pop] on
    a container without items, and [Get], [Set] or [Remove] with a handle
    that matches the odd generation stored for a freed slot. *)
Theorem panics_only_on_empty_Pop_or_freed_slot s (o : op) :
  reachable s -> exec o s = None ->
  (o = OPop /\ data s = []) \/
  (exists h, (o = OGet h \/ (exists v, o = OSet h v) \/ o = ORemove h) /\
             exists i, resolves s h i /\ Z.even (vid h) = false).
Proof.
  intros Hr Hnone. pose proof (reachable_wf _ Hr) as Hwf.
  destruct o as [v | h | h v | h | | | | y | y];
    unfold exec, bind, ret in Hnone.
  - destruct (Put_cases s v Hwf) as [(m & _ & Hp) | [_ Hp]];
      by rewrite Hp in Hnone.
  - right. exists h. split; [by left|].
    apply (handle_op_panics s h (Get h)); [done | by apply validated_Get |].
    by destruct (Get h s) as [[[] ?]|].
  - right. exists h. split; [right; left; by exists v|].
    apply (handle_op_panics s h (Set_ h v)); [done | by apply validated_Set |].
    by destruct (Set_ h v s) as [[[] ?]|].
  - right. exists h. split; [by right; right|].
    apply (handle_op_panics s h (Remove h));
      [done | by apply validated_Remove |].
    by destruct (Remove h s) as [[[] ?]|].
  - left. split; [done|].
    destruct (decide (data s = [])) as [Hd|Hd]; [done|].
    destruct (Pop_nonempty s Hwf Hd) as (m & item & _ & _ & _ & Hpop).
    by rewrite Hpop in Hnone.
  - done.
  - done.
  - done.
  - unfold Iter2, bind, get, lift in Hnone.
    pose proof (wf_len_data _ Hwf) as Hld.
    destruct (range_loop2_spec y (meta s) (data s) 0) as (r & Hit & _);
      [simpl; lia|].
    by rewrite Hit in Hnone.
Qed.

End Panics.

Lemma panics_only_on_empty_Pop_or_freed_slot_witness :
  reachable vacated_state /\
  exec (T:=Z) (OGet (mk_meta 0 1)) vacated_state = None /\
  exists h i, resolves vacated_state h i /\ Z.even (vid h) = false.
Proof.
  split; [exact reachable_vacated_state|]. split; [vm_compute; reflexivity|].
  destruct (panics_only_on_empty_Pop_or_freed_slot vacated_state
              (OGet (mk_meta 0 1)) reachable_vacated_state)
    as [[Hop _] | (h & _ & i & Hres)].
  - vm_compute. reflexivity.
  - discriminate Hop.
  - exists h, i. exact Hres.
Defined.
